(** * p9sk1 / p9sk2: the Plan 9 secret-key authentication engine

    A shallow embedding of [src/p9sk1.c]: the per-session state machine
    ([p9skinit], [p9skread], [p9skwrite], [p9skclose]) over an explicit
    store, with the collaborators the file calls but does not define
    (codec, key store, ticket service, allocator, random source) gathered
    in the interface [Env]. *)

From stdpp Require Import base numbers list strings gmap.

Local Open Scope Z_scope.

(** ** Data *)

(** A byte is a [Z] in [0, 256); a [char] array is a list of them. *)
Abbreviation bytes := (list Z).

(** An address of a block obtained from [emalloc]. *)
Abbreviation loc := nat.

(** [Attr*]: a list of name/value pairs, in order. *)
Abbreviation Attr := (list (string * string)).

(** [Key] of dat.h, as far as this file looks into it: [k->attr] and
    [k->priv] (the DES key). *)
Record Key := mkKey { k_attr : Attr; k_priv : bytes }.

(** [Keyinfo] of dat.h: what [mkkeyinfo] fills in and [findkey] reads. *)
Record Keyinfo := mkKeyinfo { ki_user : option string; ki_attr : Attr }.

(** [Ticketreq], [Ticket] and [Authenticator] of authsrv.h. *)
Record Ticketreq := mkTicketreq {
  tr_type : Z;
  tr_authid : string;
  tr_authdom : string;
  tr_chal : bytes;
  tr_hostid : string;
  tr_uid : string
}.

Record Ticket := mkTicket {
  t_num : Z;
  t_chal : bytes;
  t_cuid : string;
  t_suid : string;
  t_key : bytes
}.

Record Authenticator := mkAuthenticator {
  a_num : Z;
  a_chal : bytes;
  a_id : Z
}.

(** [struct State] (p9sk1.c, lines 21-31).  [key] and [secret] are
    pointers: [None] is [nil]. *)
Record State := mkState {
  vers : Z;
  key : option Key;
  t : Ticket;
  tr : Ticketreq;
  cchal : bytes;
  tbuf : bytes;
  authkey : bytes;
  secret : option loc;
  speakfor : Z
}.

(** The phases (p9sk1.c, lines 34-48), with the values the enum gives. *)
Definition CHaveChal : Z := 0.
Definition CNeedTreq : Z := 1.
Definition CHaveTicket : Z := 2.
Definition CNeedAuth : Z := 3.
Definition SNeedChal : Z := 4.
Definition SHaveTreq : Z := 5.
Definition SNeedTicket : Z := 6.
Definition SHaveAuth : Z := 7.
Definition Maxphase : Z := 8.

Definition phasenames : list string :=
  ["CHaveChal"; "CNeedTreq"; "CHaveTicket"; "CNeedAuth";
   "SNeedChal"; "SHaveTreq"; "SNeedTicket"; "SHaveAuth"].

(** The return codes of dat.h.  Modelled from the spec: [phaseerror],
    [toosmall] and [failure] are helpers of dat.h that src/ does not hold;
    the phase error names the operation, and the too-small error carries
    the required size ([toosmall(fss, m)] records [m] for the caller). *)
Inductive Rpc :=
| RpcFailure
| RpcNeedkey
| RpcOk
| RpcErrstr
| RpcToosmall (nwant : Z)
| RpcPhase (op : string)
| RpcConfirm.

Global Instance Rpc_eq_dec : EqDecision Rpc.
Proof. solve_decision. Defined.

(** [fss->ai]: the result handed to the caller.  [ai_secret] aliases the
    session's [secret] block. *)
Record AuthInfo := mkAuthInfo {
  ai_cuid : option string;
  ai_suid : option string;
  ai_secret : option loc;
  ai_nsecret : Z
}.

(** [Fsstate] of dat.h, the fields this file touches. *)
Record Fsstate := mkFsstate {
  attr : Attr;
  sysuser : string;
  phase : Z;
  phasename : option (list string);
  maxphase : Z;
  ps : option loc;
  ai : AuthInfo;
  haveai : Z
}.

(** The two protocol tables [p9skinit] compares its argument with;
    [other_proto] is any other [Proto*]. *)
Inductive Proto := p9sk1 | p9sk2 | other_proto.

(** [p9sk1.keyprompt] (line 279). *)
Definition keyprompt : string := "user? !password?".

(** ** The store *)

Inductive Block :=
| BState (s : State)
| BBytes (b : bytes).

(** Live heap blocks, the log of [closekey] calls, the state of the random
    source, and the staging variables [auth], [trbuf] and [tbuf] that
    [p9skwrite] uses without declaring them (file scope, shared by all
    sessions). *)
Record World := mkWorld {
  heap : gmap loc Block;
  closed : list Key;
  entropy : nat;
  g_auth : Authenticator;
  g_trbuf : bytes;
  g_tbuf : bytes
}.

Definition set_heap (h : gmap loc Block) (w : World) : World :=
  mkWorld h (closed w) (entropy w) (g_auth w) (g_trbuf w) (g_tbuf w).
Definition set_closed (c : list Key) (w : World) : World :=
  mkWorld (heap w) c (entropy w) (g_auth w) (g_trbuf w) (g_tbuf w).
Definition set_entropy (e : nat) (w : World) : World :=
  mkWorld (heap w) (closed w) e (g_auth w) (g_trbuf w) (g_tbuf w).
Definition set_g_auth (a : Authenticator) (w : World) : World :=
  mkWorld (heap w) (closed w) (entropy w) a (g_trbuf w) (g_tbuf w).
Definition set_g_tbuf (b : bytes) (w : World) : World :=
  mkWorld (heap w) (closed w) (entropy w) (g_auth w) (g_trbuf w) b.

Definition set_vers (v : Z) (s : State) : State :=
  mkState v (key s) (t s) (tr s) (cchal s) (tbuf s) (authkey s) (secret s) (speakfor s).
Definition set_key (k : option Key) (s : State) : State :=
  mkState (vers s) k (t s) (tr s) (cchal s) (tbuf s) (authkey s) (secret s) (speakfor s).
Definition set_t (x : Ticket) (s : State) : State :=
  mkState (vers s) (key s) x (tr s) (cchal s) (tbuf s) (authkey s) (secret s) (speakfor s).
Definition set_tr (x : Ticketreq) (s : State) : State :=
  mkState (vers s) (key s) (t s) x (cchal s) (tbuf s) (authkey s) (secret s) (speakfor s).
Definition set_cchal (b : bytes) (s : State) : State :=
  mkState (vers s) (key s) (t s) (tr s) b (tbuf s) (authkey s) (secret s) (speakfor s).
Definition set_tbuf (b : bytes) (s : State) : State :=
  mkState (vers s) (key s) (t s) (tr s) (cchal s) b (authkey s) (secret s) (speakfor s).
Definition set_secret (l : option loc) (s : State) : State :=
  mkState (vers s) (key s) (t s) (tr s) (cchal s) (tbuf s) (authkey s) l (speakfor s).
Definition set_speakfor (v : Z) (s : State) : State :=
  mkState (vers s) (key s) (t s) (tr s) (cchal s) (tbuf s) (authkey s) (secret s) v.

Definition set_phase (p : Z) (f : Fsstate) : Fsstate :=
  mkFsstate (attr f) (sysuser f) p (phasename f) (maxphase f) (ps f) (ai f) (haveai f).
Definition set_phasename (x : option (list string)) (f : Fsstate) : Fsstate :=
  mkFsstate (attr f) (sysuser f) (phase f) x (maxphase f) (ps f) (ai f) (haveai f).
Definition set_maxphase (x : Z) (f : Fsstate) : Fsstate :=
  mkFsstate (attr f) (sysuser f) (phase f) (phasename f) x (ps f) (ai f) (haveai f).
Definition set_ps (x : option loc) (f : Fsstate) : Fsstate :=
  mkFsstate (attr f) (sysuser f) (phase f) (phasename f) (maxphase f) x (ai f) (haveai f).
Definition set_ai (x : AuthInfo) (f : Fsstate) : Fsstate :=
  mkFsstate (attr f) (sysuser f) (phase f) (phasename f) (maxphase f) (ps f) x (haveai f).
Definition set_haveai (x : Z) (f : Fsstate) : Fsstate :=
  mkFsstate (attr f) (sysuser f) (phase f) (phasename f) (maxphase f) (ps f) (ai f) x.
Definition set_attr (x : Attr) (f : Fsstate) : Fsstate :=
  mkFsstate x (sysuser f) (phase f) (phasename f) (maxphase f) (ps f) (ai f) (haveai f).

Definition set_ai_uids (c s : string) (x : AuthInfo) : AuthInfo :=
  mkAuthInfo (Some c) (Some s) (ai_secret x) (ai_nsecret x).
Definition set_ai_secret (l : option loc) (n : Z) (x : AuthInfo) : AuthInfo :=
  mkAuthInfo (ai_cuid x) (ai_suid x) l n.

Definition set_a_num (n : Z) (a : Authenticator) : Authenticator :=
  mkAuthenticator n (a_chal a) (a_id a).

(** ** The monad of the C code: a store, and the ways a call can go wrong *)

Inductive fault :=
| Aborted        (* abort(), or sysfatal in a helper *)
| NullDeref      (* dereference of nil *)
| Dangling.      (* use of a block that was freed, or never allocated *)

Definition M (A : Type) : Type := World → fault + (A * World).

Global Instance M_ret : MRet M := λ A a w, inr (a, w).
Global Instance M_bind : MBind M := λ A B f m w,
  match m w with
  | inl e => inl e
  | inr (a, w') => f a w'
  end.

Definition crash {A} (e : fault) : M A := λ _, inl e.
Definition get_world : M World := λ w, inr (w, w).
Definition put_world (w : World) : M unit := λ _, inr ((), w).

(** [emalloc]: a fresh block.  The contents are given by the caller of
    this definition; [emalloc] itself zero-fills ([p9skclose] relies on it
    when it tests [s->secret] and [s->key] against nil). *)
Definition emalloc (b : Block) : M loc := λ w,
  let l := fresh (dom (heap w)) in
  inr (l, set_heap (<[l := b]> (heap w)) w).

(** [free]: the block must be live. *)
Definition free (l : loc) : M unit := λ w,
  match heap w !! l with
  | Some _ => inr ((), set_heap (delete l (heap w)) w)
  | None => inl Dangling
  end.

(** [State *s = fss->ps], at the first [s->...]. *)
Definition load_State (p : option loc) : M State := λ w,
  match p with
  | None => inl NullDeref
  | Some l =>
      match heap w !! l with
      | Some (BState s) => inr (s, w)
      | _ => inl Dangling
      end
  end.

Definition store_State (p : option loc) (s : State) : M unit := λ w,
  match p with
  | None => inl NullDeref
  | Some l =>
      match heap w !! l with
      | Some _ => inr ((), set_heap (<[l := BState s]> (heap w)) w)
      | None => inl Dangling
      end
  end.

(** [closekey(k)]: the key store records the release. *)
Definition closekey (k : Key) : M unit := λ w,
  inr ((), set_closed (closed w ++ [k]) w).

(** ** Buffers *)

(** Overwrite [dst] from offset [off] with [src]. *)
Definition poke (dst : bytes) (off : nat) (src : bytes) : bytes :=
  take off dst ++ src ++ drop (off + length src) dst.

(** A write of [b] through a [uchar*]. *)
Definition store_bytes (p : option loc) (b : bytes) : M unit := λ w,
  match p with
  | None => inl NullDeref
  | Some l =>
      match heap w !! l with
      | Some (BBytes old) => inr ((), set_heap (<[l := BBytes (poke old 0 b)]> (heap w)) w)
      | _ => inl Dangling
      end
  end.

(** [memmove(dst + off, src, n)]. *)
Definition memmove (dst : bytes) (off : nat) (src : bytes) (n : nat) : bytes :=
  poke dst off (take n src).

(** A comparison [n < m] of a [uint] with an [int]: [m] is converted to
    [uint], 32 bits wide. *)
Definition uint_lt (n m : Z) : bool := (n mod 2 ^ 32 <? m mod 2 ^ 32).

(** ** Attribute lists and strings (helpers of dat.h, absent from src/) *)

Fixpoint _strfindattr (a : Attr) (n : string) : option string :=
  match a with
  | [] => None
  | (k, v) :: a' => if decide (k = n) then Some v else _strfindattr a' n
  end.

Definition _delattr (a : Attr) (n : string) : Attr :=
  filter (λ kv, kv.1 ≠ n) a.

Definition _copyattr (a : Attr) : Attr := a.

(** [setattr(a, "k=v")]. *)
Definition setattr (a : Attr) (k v : string) : Attr :=
  _delattr a k ++ [(k, v)].

Definition mkkeyinfo (f : Fsstate) (a : Attr) : Keyinfo :=
  mkKeyinfo (Some (sysuser f)) a.

(** [safecpy(to, from, n)]: at most [n-1] characters and a NUL; a nil
    [from] is fatal. *)
Definition safecpy (from : option string) (n : nat) : M string :=
  match from with
  | None => crash Aborted
  | Some s => mret (String.substring 0 (n - 1) s)
  end.

(** ** The collaborators

    What p9sk1.c calls and neither defines nor declares: the sizes and tags
    of authsrv.h, the terminal phase of dat.h, the codec, the key store,
    the random source.  Modelled from the spec: [gettickets] is declared in
    p9sk1.c (line 63) and its body is missing; by the spec's contract it is
    given the ticket request and the initiator's own key and produces a
    buffer holding the pair of tickets, or fails (a negative result). *)
Class Env := {
  CHALLEN : nat;
  DESKEYLEN : nat;
  ANAMELEN : nat;
  DOMLEN : nat;
  TICKETLEN : nat;
  AUTHENTLEN : nat;
  TICKREQLEN : nat;
  AuthTreq : Z;
  AuthAs : Z;
  AuthAc : Z;
  Established : Z;
  (* the role attribute, if any: 1 client, 0 server, negative otherwise *)
  isclient : option string → Z;
  (* the state of the random source and a length *)
  memrandom : nat → nat → bytes;
  (* the key info, the format and its arguments; the return code and what
     is stored through the first argument ([None]: nothing is stored) *)
  findkey : Keyinfo → string → list string → Rpc * option Key;
  (* the request, the key, [trbuf] and [tbuf]; the result and the new
     contents of [tbuf] *)
  gettickets : Ticketreq → option Key → bytes → bytes → Z * bytes;
  convTR2M : Ticketreq → bytes;
  convM2TR : bytes → Ticketreq;
  convM2T : bytes → bytes → Ticket;
  convM2A : bytes → bytes → Authenticator;
  convA2M : Authenticator → bytes → bytes;
  des56to64 : bytes → bytes
}.

(** What the code relies on: the sizes fit an [int], the terminal phase is
    none of the protocol's own, and each encoder fills its buffer. *)
Class EnvOk (E : Env) : Prop := {
  CHALLEN_int : 0 < Z.of_nat CHALLEN < 2 ^ 31;
  TICKREQLEN_int : 0 < Z.of_nat TICKREQLEN < 2 ^ 31;
  AUTHENTLEN_int : 0 < Z.of_nat AUTHENTLEN < 2 ^ 31;
  TICKETLEN_int : 0 < Z.of_nat TICKETLEN ∧ Z.of_nat (TICKETLEN + AUTHENTLEN) < 2 ^ 31;
  Established_out : ¬ (0 ≤ Established < Maxphase);
  memrandom_length : ∀ e n, length (memrandom e n) = n;
  convTR2M_length : ∀ r, length (convTR2M r) = TICKREQLEN;
  convA2M_length : ∀ a k, length (convA2M a k) = AUTHENTLEN;
  convM2TR_chal_length : ∀ b, length (tr_chal (convM2TR b)) = CHALLEN;
  des56to64_length : ∀ k, length (des56to64 k) = 8%nat
}.

Section Engine.
Context {E : Env}.

Definition zero_Ticket : Ticket :=
  mkTicket 0 (replicate CHALLEN 0) "" "" (replicate DESKEYLEN 0).
Definition zero_Ticketreq : Ticketreq :=
  mkTicketreq 0 "" "" (replicate CHALLEN 0) "" "".

(** The block [emalloc(sizeof(State))] returns. *)
Definition zero_State : State :=
  mkState 0 None zero_Ticket zero_Ticketreq (replicate CHALLEN 0)
    (replicate (TICKETLEN + AUTHENTLEN) 0) (replicate DESKEYLEN 0) None 0.

Definition set_tr_type (x : Z) (r : Ticketreq) : Ticketreq :=
  mkTicketreq x (tr_authid r) (tr_authdom r) (tr_chal r) (tr_hostid r) (tr_uid r).
Definition set_tr_authid (x : string) (r : Ticketreq) : Ticketreq :=
  mkTicketreq (tr_type r) x (tr_authdom r) (tr_chal r) (tr_hostid r) (tr_uid r).
Definition set_tr_authdom (x : string) (r : Ticketreq) : Ticketreq :=
  mkTicketreq (tr_type r) (tr_authid r) x (tr_chal r) (tr_hostid r) (tr_uid r).
Definition set_tr_chal (x : bytes) (r : Ticketreq) : Ticketreq :=
  mkTicketreq (tr_type r) (tr_authid r) (tr_authdom r) x (tr_hostid r) (tr_uid r).

(** [memrandom(buf, n)]: [n] bytes from the random source. *)
Definition memrandom_bytes (n : nat) : M bytes := λ w,
  inr (memrandom (entropy w) n, set_entropy (S (entropy w)) w).

(** [k->attr] through a [Key*]. *)
Definition deref_Key (k : option Key) : M Key :=
  match k with
  | Some k => mret k
  | None => crash NullDeref
  end.

(** ** p9skinit (lines 66-130) *)
Definition p9skinit (p : Proto) (fss : Fsstate) : M (Rpc * Fsstate) :=
  let iscli := isclient (_strfindattr (attr fss) "role") in
  if iscli <? 0 then mret (RpcFailure, fss)
  else
    sp ← emalloc (BState zero_State);
    let s := zero_State in
    let fss := set_maxphase Maxphase (set_phasename (Some phasenames) fss) in
    v ← match p with
        | p9sk1 => mret 1
        | p9sk2 => mret 2
        | other_proto => crash Aborted
        end;
    let s := set_vers v s in
    if negb (iscli =? 0) then
      '(fss, s) ←
        (if vers s =? 1 then
           r ← memrandom_bytes CHALLEN;
           mret (set_phase CHaveChal fss, set_cchal (memmove (cchal s) 0 r CHALLEN) s)
         else if vers s =? 2 then mret (set_phase CNeedTreq fss, s)
         else mret (fss, s));
      store_State (Some sp) s;;
      mret (RpcOk, set_ps (Some sp) fss)
    else
      let s := set_tr (set_tr_type AuthTreq (tr s)) s in
      let attr := setattr (_copyattr (attr fss)) "proto" "p9sk1" in
      let ki := mkkeyinfo fss attr in
      let ki := mkKeyinfo None (ki_attr ki) in
      let '(ret, k) := findkey ki "user? dom?" [] in
      if decide (ret = RpcOk) then
        kv ← deref_Key k;
        authid ← safecpy (_strfindattr (k_attr kv) "user") ANAMELEN;
        let s := set_tr (set_tr_authid authid (tr s)) s in
        authdom ← safecpy (_strfindattr (k_attr kv) "dom") DOMLEN;
        let s := set_tr (set_tr_authdom authdom (tr s)) s in
        let s := set_key k s in
        r ← memrandom_bytes CHALLEN;
        let s := set_tr (set_tr_chal (memmove (tr_chal (tr s)) 0 r CHALLEN) (tr s)) s in
        let '(fss, s) :=
          if vers s =? 1 then (set_phase SNeedChal fss, s)
          else if vers s =? 2 then
            (set_phase SHaveTreq fss,
             set_cchal (memmove (cchal s) 0 (tr_chal (tr s)) CHALLEN) s)
          else (fss, s) in
        store_State (Some sp) s;;
        mret (RpcOk, set_ps (Some sp) fss)
      else
        free sp;;
        mret (ret, fss).

(** ** p9skread (lines 133-184)

    [n] is the capacity [*n] on entry.  The result holds the return code,
    the session, the value of [*n] on return and the bytes stored at the
    front of [a]. *)
Definition p9skread (fss : Fsstate) (n : Z) : M (Rpc * Fsstate * Z * bytes) :=
  if phase fss =? CHaveChal then
    let m := CHALLEN in
    if uint_lt n (Z.of_nat m) then mret (RpcToosmall (Z.of_nat m), fss, n, [])
    else
      s ← load_State (ps fss);
      mret (RpcOk, set_phase CNeedTreq fss, Z.of_nat m, take m (cchal s))
  else if phase fss =? SHaveTreq then
    let m := TICKREQLEN in
    if uint_lt n (Z.of_nat m) then mret (RpcToosmall (Z.of_nat m), fss, n, [])
    else
      s ← load_State (ps fss);
      mret (RpcOk, set_phase SNeedTicket fss, Z.of_nat m, convTR2M (tr s))
  else if phase fss =? CHaveTicket then
    let m := (TICKETLEN + AUTHENTLEN)%nat in
    if uint_lt n (Z.of_nat m) then mret (RpcToosmall (Z.of_nat m), fss, n, [])
    else
      s ← load_State (ps fss);
      mret (RpcOk, set_phase CNeedAuth fss, Z.of_nat m, take m (tbuf s))
  else if phase fss =? SHaveAuth then
    let m := AUTHENTLEN in
    if uint_lt n (Z.of_nat m) then mret (RpcToosmall (Z.of_nat m), fss, n, [])
    else
      s ← load_State (ps fss);
      let out := take m (drop TICKETLEN (tbuf s)) in
      let fss := set_ai (set_ai_uids (t_cuid (t s)) (t_suid (t s)) (ai fss)) fss in
      l ← emalloc (BBytes (replicate 8 0));
      let s := set_secret (Some l) s in
      store_bytes (secret s) (des56to64 (t_key (t s)));;
      let fss := set_ai (set_ai_secret (secret s) 8 (ai fss)) fss in
      let fss := set_haveai 1 fss in
      store_State (ps fss) s;;
      mret (RpcOk, set_phase Established fss, Z.of_nat m, out)
  else mret (RpcPhase "read", fss, n, []).

(** ** p9skwrite (lines 187-257)

    [a] is the caller's buffer and [n] the length the caller gives for it.
    [ki] is the local [Keyinfo ki], which the function declares and never
    assigns: its contents at the call of [findkey] are whatever the stack
    holds. *)
Definition p9skwrite (ki : Keyinfo) (fss : Fsstate) (a : bytes) (n : Z)
  : M (Rpc * Fsstate) :=
  if phase fss =? SNeedChal then
    let m := CHALLEN in
    if uint_lt n (Z.of_nat m) then mret (RpcToosmall (Z.of_nat m), fss)
    else
      s ← load_State (ps fss);
      store_State (ps fss) (set_cchal (memmove (cchal s) 0 a m) s);;
      mret (RpcOk, set_phase SHaveTreq fss)
  else if phase fss =? CNeedTreq then
    let m := TICKREQLEN in
    if uint_lt n (Z.of_nat m) then mret (RpcToosmall (Z.of_nat m), fss)
    else
      s ← load_State (ps fss);
      let s := set_tr (convM2TR (take m a)) s in
      let s :=
        if vers s =? 2
        then set_cchal (memmove (cchal s) 0 (tr_chal (tr s)) CHALLEN) s
        else s in
      (* Retrieve key *)
      let attr := _delattr (_copyattr (attr fss)) "role" in
      let attr := setattr attr "proto" "p9sk1" in
      let '(ret, k) := findkey ki "role=client dom=%q %s"
                         [tr_authdom (tr s); keyprompt] in
      let s := match k with Some _ => set_key k s | None => s end in
      if decide (ret = RpcOk) then
        (* Get tickets *)
        w ← get_world;
        let '(r, tb) := gettickets (tr s) (key s) (g_trbuf w) (g_tbuf w) in
        put_world (set_g_tbuf tb w);;
        if r <? 0 then
          store_State (ps fss) s;;
          mret (RpcFailure, fss)
        else
          let s := set_tbuf (memmove (tbuf s) 0 (drop TICKETLEN tb) TICKETLEN) s in
          let auth := set_a_num AuthAc (g_auth w) in
          put_world (set_g_auth auth (set_g_tbuf tb w));;
          let s := set_tbuf (poke (tbuf s) TICKETLEN (convA2M auth (t_key (t s)))) s in
          store_State (ps fss) s;;
          mret (RpcOk, set_phase CHaveTicket fss)
      else
        store_State (ps fss) s;;
        mret (RpcFailure, fss)
  else if phase fss =? SNeedTicket then
    let m := (TICKETLEN + AUTHENTLEN)%nat in
    if uint_lt n (Z.of_nat m) then mret (RpcToosmall (Z.of_nat m), fss)
    else
      s ← load_State (ps fss);
      kv ← deref_Key (key s);
      let s := set_t (convM2T (take TICKETLEN a) (k_priv kv)) s in
      w ← get_world;
      let auth := convM2A (take AUTHENTLEN (drop TICKETLEN a)) (t_key (t s)) in
      let auth := set_a_num AuthAs auth in
      put_world (set_g_auth auth w);;
      let s := set_tbuf (poke (tbuf s) TICKETLEN (convA2M auth (t_key (t s)))) s in
      store_State (ps fss) s;;
      mret (RpcOk, set_phase SHaveAuth fss)
  else if phase fss =? CNeedAuth then
    let m := AUTHENTLEN in
    if uint_lt n (Z.of_nat m) then mret (RpcToosmall (Z.of_nat m), fss)
    else
      s ← load_State (ps fss);
      w ← get_world;
      put_world (set_g_auth (convM2A (take m a) (t_key (t s))) w);;
      let fss := set_ai (set_ai_uids (t_cuid (t s)) (t_suid (t s)) (ai fss)) fss in
      let fss := set_haveai 1 fss in
      mret (RpcOk, set_phase Established fss)
  else mret (RpcPhase "write", fss).

(** ** p9skclose (lines 260-269) *)
Definition p9skclose (fss : Fsstate) : M unit :=
  s ← load_State (ps fss);
  match secret s with
  | Some l => free l
  | None => mret ()
  end;;
  match key s with
  | Some k => closekey k
  | None => mret ()
  end;;
  match ps fss with
  | Some l => free l
  | None => mret ()
  end.

End Engine.

(** ** A mock environment

    The sizes and tags of Plan 9's authsrv.h, a codec that lays the fields
    out in wire order and masks them with the key, a key store holding one
    key for each role, and a ticket service that issues a fixed session
    key.  It stands in for the collaborators when a statement is run on a
    concrete session. *)
Module Mock.

Definition str_bytes (n : nat) (s : string) : bytes :=
  take n (((λ c, Z.of_N (Ascii.N_of_ascii c)) <$> String.list_ascii_of_string s)
          ++ replicate n 0).

Fixpoint cstring (b : bytes) : string :=
  match b with
  | [] => EmptyString
  | x :: b' =>
      if x =? 0 then EmptyString
      else String (Ascii.ascii_of_N (Z.to_N x)) (cstring b')
  end.

(** [n] bytes from offset [off], zero beyond the end of [b]. *)
Definition slice (off n : nat) (b : bytes) : bytes :=
  take n (drop off b ++ replicate n 0).

Definition le32 (x : Z) : bytes :=
  [x mod 256; (x / 256) mod 256; (x / 65536) mod 256; (x / 16777216) mod 256].

Definition le32_val (b : bytes) : Z :=
  nth 0 b 0 + 256 * nth 1 b 0 + 65536 * nth 2 b 0 + 16777216 * nth 3 b 0.

(** The mask: byte [i] is xored with byte [i mod |k|] of the key. *)
Definition crypt (k : bytes) (b : bytes) : bytes :=
  imap (λ i x, Z.lxor x (nth (i mod length k) k 0)) b.

Definition T2M (x : Ticket) (k : bytes) : bytes :=
  crypt k ([t_num x] ++ slice 0 8 (t_chal x) ++ str_bytes 28 (t_cuid x)
           ++ str_bytes 28 (t_suid x) ++ slice 0 7 (t_key x)).

Definition M2T (b : bytes) (k : bytes) : Ticket :=
  let p := crypt k (slice 0 72 b) in
  mkTicket (nth 0 p 0) (slice 1 8 p) (cstring (slice 9 28 p))
    (cstring (slice 37 28 p)) (slice 65 7 p).

Definition A2M (x : Authenticator) (k : bytes) : bytes :=
  crypt k ([a_num x] ++ slice 0 8 (a_chal x) ++ le32 (a_id x)).

Definition M2A (b : bytes) (k : bytes) : Authenticator :=
  let p := crypt k (slice 0 13 b) in
  mkAuthenticator (nth 0 p 0) (slice 1 8 p) (le32_val (slice 9 4 p)).

Definition TR2M (r : Ticketreq) : bytes :=
  [tr_type r] ++ str_bytes 28 (tr_authid r) ++ str_bytes 48 (tr_authdom r)
  ++ slice 0 8 (tr_chal r) ++ str_bytes 28 (tr_hostid r) ++ str_bytes 28 (tr_uid r).

Definition M2TR (b : bytes) : Ticketreq :=
  mkTicketreq (nth 0 b 0) (cstring (slice 1 28 b)) (cstring (slice 29 48 b))
    (slice 77 8 b) (cstring (slice 85 28 b)) (cstring (slice 113 28 b)).

Definition server_key : Key :=
  mkKey [("proto", "p9sk1"); ("user", "alice"); ("dom", "example")]
        [11; 12; 13; 14; 15; 16; 17].

Definition client_key : Key :=
  mkKey [("proto", "p9sk1"); ("user", "bob"); ("dom", "example")]
        [21; 22; 23; 24; 25; 26; 27].

Definition session_key : bytes := [1; 2; 3; 4; 5; 6; 7].

Definition mock_isclient (role : option string) : Z :=
  match role with
  | Some r =>
      if decide (r = "server") then 0
      else if decide (r = "client") then 1
      else -1
  | None => -1
  end.

(** One key for ["user? dom?"] (the server's own), one for a client in the
    domain [example]. *)
Definition mock_findkey (ki : Keyinfo) (fmt : string) (args : list string)
  : Rpc * option Key :=
  if decide (fmt = "user? dom?") then (RpcOk, Some server_key)
  else if decide (args !! 0%nat = Some "example") then (RpcOk, Some client_key)
  else (RpcNeedkey, None).

(** The ticket service: a client ticket under the client's key, then a
    server ticket under the server's, both carrying the request's
    challenge and the session key. *)
Definition mock_gettickets (r : Ticketreq) (k : option Key) (trbuf tbuf : bytes)
  : Z * bytes :=
  match k with
  | None => (-1, tbuf)
  | Some ck =>
      let tk c := mkTicket c (tr_chal r) "bob" (tr_authid r) session_key in
      (0, T2M (tk 65) (k_priv ck) ++ T2M (tk 64) (k_priv server_key))
  end.

Definition mock_memrandom (e n : nat) : bytes :=
  (λ i, (Z.of_nat (17 * e + i + 1)) mod 256) <$> seq 0 n.

Definition mock_des56to64 (k : bytes) : bytes := slice 0 8 k.

Definition env : Env := {|
  CHALLEN := 8;
  DESKEYLEN := 7;
  ANAMELEN := 28;
  DOMLEN := 48;
  TICKETLEN := 72;
  AUTHENTLEN := 13;
  TICKREQLEN := 141;
  AuthTreq := 1;
  AuthAs := 66;
  AuthAc := 67;
  Established := -1;
  isclient := mock_isclient;
  memrandom := mock_memrandom;
  findkey := mock_findkey;
  gettickets := mock_gettickets;
  convTR2M := TR2M;
  convM2TR := M2TR;
  convM2T := M2T;
  convM2A := M2A;
  convA2M := A2M;
  des56to64 := mock_des56to64
|}.

Definition world0 : World :=
  mkWorld ∅ [] 0 (mkAuthenticator 0 (replicate 8 0) 0)
    (replicate 141 0) (replicate 144 0).

Definition fss0 (role : string) : Fsstate :=
  mkFsstate [("role", role)] "glenda" (-3) None 0 None
    (mkAuthInfo None None None 0) 0.

Definition ki0 : Keyinfo := mkKeyinfo None [].

#[local] Existing Instance env.

(** The handshake of the full variant between a server and a client, cut
    at the points the statements below look at. *)
Definition both_init : M (Fsstate * Fsstate) :=
  '(_, fs) ← p9skinit p9sk1 (fss0 "server");
  '(_, fc) ← p9skinit p9sk1 (fss0 "client");
  mret (fs, fc).

(** Up to the server's read of its request: the client is at
    [CNeedTreq] and the request is on its way. *)
Definition to_treq : M (Fsstate * Fsstate * bytes) :=
  '(fs, fc) ← both_init;
  '(_, fc, _, chal) ← p9skread fc 8;
  '(_, fs) ← p9skwrite ki0 fs chal 8;
  '(_, fs, _, treq) ← p9skread fs 141;
  mret (fs, fc, treq).

(** Up to the client's read of the tickets: the server is at
    [SNeedTicket], the client at [CNeedAuth]. *)
Definition to_ticket : M (Fsstate * Fsstate * bytes) :=
  '(fs, fc, treq) ← to_treq;
  '(_, fc) ← p9skwrite ki0 fc treq 141;
  '(_, fc, _, tick) ← p9skread fc 85;
  mret (fs, fc, tick).

(** Up to the server's read of its authenticator: the server is done. *)
Definition to_auth : M (Fsstate * Fsstate * bytes) :=
  '(fs, fc, tick) ← to_ticket;
  '(_, fs) ← p9skwrite ki0 fs tick 85;
  '(_, fs, _, au) ← p9skread fs 13;
  mret (fs, fc, au).

Definition handshake : M (Fsstate * Fsstate) :=
  '(fs, fc, au) ← to_auth;
  '(_, fc) ← p9skwrite ki0 fc au 13;
  mret (fs, fc).

(** The outcome of a run from the empty store; [d] if it faults. *)
Definition outcome {A} (m : M A) (d : A) : A * World :=
  match m world0 with
  | inr x => x
  | inl _ => (d, world0)
  end.

Definition fss_none : Fsstate := fss0 "".

(** The session stored at [l]. *)
Definition session_at (w : World) (l : loc) : State :=
  match heap w !! l with
  | Some (BState s) => s
  | _ => zero_State
  end.

(** The flawed variant, up to the server's read of its request. *)
Definition flawed_to_treq : M (Fsstate * Fsstate * bytes) :=
  '(_, fs) ← p9skinit p9sk2 (fss0 "server");
  '(_, fc) ← p9skinit p9sk2 (fss0 "client");
  '(_, fs, _, treq) ← p9skread fs 141;
  mret (fs, fc, treq).

(** The stages as values. *)
Definition stage_init := outcome both_init (fss_none, fss_none).
Definition stage_treq := outcome to_treq (fss_none, fss_none, []).
Definition stage_ticket := outcome to_ticket (fss_none, fss_none, []).
Definition stage_auth := outcome to_auth (fss_none, fss_none, []).
Definition stage_flawed := outcome flawed_to_treq (fss_none, fss_none, []).

(** Up to the server's write of the challenge: the server is at
    [SHaveTreq], the client at [CNeedTreq]. *)
Definition to_chal : M (Fsstate * Fsstate) :=
  '(fs, fc) ← both_init;
  '(_, fc, _, chal) ← p9skread fc 8;
  '(_, fs) ← p9skwrite ki0 fs chal 8;
  mret (fs, fc).

(** Up to the server's write of the tickets: the server is at
    [SHaveAuth]. *)
Definition to_have_auth : M (Fsstate * Fsstate) :=
  '(fs, fc, tick) ← to_ticket;
  '(_, fs) ← p9skwrite ki0 fs tick 85;
  mret (fs, fc).

(** The server at [SNeedTicket] and, beside the first client, a second
    one of the flawed variant, at [CNeedTreq]. *)
Definition to_second_client : M (Fsstate * Fsstate * bytes) :=
  '(fs, _, tick) ← to_ticket;
  '(_, fb) ← p9skinit p9sk2 (fss0 "client");
  mret (fs, fb, tick).

Definition stage_chal := outcome to_chal (fss_none, fss_none).
Definition stage_have_auth := outcome to_have_auth (fss_none, fss_none).
Definition stage_second := outcome to_second_client (fss_none, fss_none, []).

End Mock.

(** ** The tables of the specification

    The phases in which a read, respectively a write, is defined, the size
    each one requires, and the four phase sequences. *)
Section Tables.
Context {E : Env}.

Definition read_phases : list Z := [CHaveChal; SHaveTreq; CHaveTicket; SHaveAuth].
Definition write_phases : list Z := [SNeedChal; CNeedTreq; SNeedTicket; CNeedAuth].

Definition read_size (p : Z) : option nat :=
  if p =? CHaveChal then Some CHALLEN
  else if p =? SHaveTreq then Some TICKREQLEN
  else if p =? CHaveTicket then Some (TICKETLEN + AUTHENTLEN)%nat
  else if p =? SHaveAuth then Some AUTHENTLEN
  else None.

Definition write_size (p : Z) : option nat :=
  if p =? SNeedChal then Some CHALLEN
  else if p =? CNeedTreq then Some TICKREQLEN
  else if p =? SNeedTicket then Some (TICKETLEN + AUTHENTLEN)%nat
  else if p =? CNeedAuth then Some AUTHENTLEN
  else None.

Definition client_seq : list Z :=
  [CHaveChal; CNeedTreq; CHaveTicket; CNeedAuth; Established].
Definition server_seq : list Z :=
  [SNeedChal; SHaveTreq; SNeedTicket; SHaveAuth; Established].

(** Full variant: the whole sequence; flawed variant: one step later. *)
Definition phase_seq (client : bool) (p : Proto) : list Z :=
  let l := if client then client_seq else server_seq in
  match p with
  | p9sk1 => l
  | _ => drop 1 l
  end.

(** The sizes of the [char] arrays of a [State]. *)
Definition wf_State (s : State) : Prop :=
  length (cchal s) = CHALLEN ∧
  length (tbuf s) = (TICKETLEN + AUTHENTLEN)%nat ∧
  length (tr_chal (tr s)) = CHALLEN.

(** [fss->ps] points to the live session [s]. *)
Definition live (w : World) (fss : Fsstate) (s : State) : Prop :=
  ∃ l, ps fss = Some l ∧ heap w !! l = Some (BState s).

(** ** Runs of a session *)

Inductive Op :=
| OpRead (n : Z)
| OpWrite (ki : Keyinfo) (a : bytes) (n : Z).

Definition step (o : Op) (fss : Fsstate) : M (Rpc * Fsstate) :=
  match o with
  | OpRead n => '(rc, fss', _, _) ← p9skread fss n; mret (rc, fss')
  | OpWrite ki a n => p9skwrite ki fss a n
  end.

(** The phase before each operation of the run and after the last one; the
    run ends where an operation faults. *)
Fixpoint phases (ops : list Op) (fss : Fsstate) (w : World) : list Z :=
  phase fss ::
  match ops with
  | [] => []
  | o :: ops' =>
      match step o fss w with
      | inl _ => []
      | inr ((_, fss'), w') => phases ops' fss' w'
      end
  end.

(** A run to its end: the return codes of the operations and the session
    record after the last one, or the first fault. *)
Fixpoint run (ops : list Op) (fss : Fsstate) : M (list Rpc * Fsstate) :=
  match ops with
  | [] => mret ([], fss)
  | o :: ops' =>
      '(rc, fss') ← step o fss;
      '(rcs, fss'') ← run ops' fss';
      mret (rc :: rcs, fss'')
  end.

(** The phases of a server session, in which [p9skwrite] goes through
    [s->key]. *)
Definition server_phases : list Z := [SNeedChal; SHaveTreq; SNeedTicket; SHaveAuth].

(** The phases of a client session. *)
Definition client_phases : list Z := [CHaveChal; CNeedTreq; CHaveTicket; CNeedAuth].

(** The state a session is in after [p9skinit] and any reads and writes:
    live, its arrays at their sizes, and its key held while it is in a
    server phase. *)
Definition sound (w : World) (fss : Fsstate) : Prop :=
  ∃ s, live w fss s ∧ wf_State s ∧
       (phase fss ∈ server_phases → is_Some (key s)).

(** Adjacent repetitions removed: the phases the run went through. *)
Fixpoint squash (l : list Z) : list Z :=
  match l with
  | [] => []
  | x :: l' =>
      match l' with
      | [] => [x]
      | y :: _ => if decide (x = y) then squash l' else x :: squash l'
      end
  end.

(** Where the sequence of a phase goes on from it. *)
Definition tail_from (p : Z) : list Z :=
  if p =? CHaveChal then client_seq
  else if p =? CNeedTreq then drop 1 client_seq
  else if p =? CHaveTicket then drop 2 client_seq
  else if p =? CNeedAuth then drop 3 client_seq
  else if p =? SNeedChal then server_seq
  else if p =? SHaveTreq then drop 1 server_seq
  else if p =? SNeedTicket then drop 2 server_seq
  else if p =? SHaveAuth then drop 3 server_seq
  else [p].

(** The speak-for field of the session at [l] set to [v]. *)
Definition with_speakfor (v : Z) (b : Block) : Block :=
  match b with
  | BState s => BState (set_speakfor v s)
  | BBytes x => BBytes x
  end.

Definition poke_speakfor (l : loc) (v : Z) (w : World) : World :=
  set_heap (alter (with_speakfor v) l (heap w)) w.

(** A change of the store applied to the outcome of a call. *)
Definition on_world {A} (f : World → World) (r : fault + (A * World))
  : fault + (A * World) :=
  match r with
  | inl e => inl e
  | inr (x, w) => inr (x, f w)
  end.

(** A change of the session record applied to the outcome of a write. *)
Definition on_fss (f : Fsstate → Fsstate)
  (r : fault + (Rpc * Fsstate * World)) : fault + (Rpc * Fsstate * World) :=
  match r with
  | inl e => inl e
  | inr ((rc, x), w) => inr ((rc, f x), w)
  end.

(** One more phase of the sequence: [q] follows [p]. *)
Definition follows (p q : Z) : Prop :=
  p ≠ q ∧ tail_from p = p :: tail_from q.

End Tables.

Module MockRuns.
Import Mock.
#[local] Existing Instance Mock.env.

(** A client on its own, fed the messages of the handshake, and a server
    on its own likewise. *)
Definition client_ops : list Op :=
  [OpRead 8; OpWrite ki0 stage_treq.1.2 141; OpRead 85;
   OpWrite ki0 stage_auth.1.2 13; OpRead 13].
Definition server_ops : list Op :=
  [OpRead 141; OpWrite ki0 [18; 19; 20; 21; 22; 23; 24; 25] 8; OpRead 141;
   OpWrite ki0 stage_ticket.1.2 85; OpRead 12; OpRead 13; OpWrite ki0 [] 0].

End MockRuns.

(** ** Tactics *)

Ltac phase_lia :=
  unfold CHaveChal, CNeedTreq, CHaveTicket, CNeedAuth,
    SNeedChal, SHaveTreq, SNeedTicket, SHaveAuth, Maxphase in *; lia.

Ltac unM :=
  unfold mbind, M_bind, mret, M_ret, crash, get_world, put_world in *.

(** Select the branch of the phase switch once the phase is known. *)
Ltac dispatch Hp :=
  rewrite Hp;
  repeat match goal with
         | |- context [?a =? ?b] =>
             let r := eval compute in (a =? b) in
             change (a =? b) with r
         end;
  cbv beta iota zeta.

(** Reduce the record projections and setters, nothing else. *)
Ltac state_cbn :=
  cbn beta iota zeta delta
    [vers key t tr cchal tbuf authkey secret speakfor
     set_vers set_key set_t set_tr set_cchal set_tbuf set_secret set_speakfor
     heap closed entropy g_auth g_trbuf g_tbuf
     set_heap set_closed set_entropy set_g_auth set_g_tbuf
     fmap option_fmap option_map with_speakfor on_world Z.eqb Pos.eqb].

Ltac world_eq :=
  unfold poke_speakfor; state_cbn;
  rewrite ?insert_alter_eq, ?alter_insert_eq, ?lookup_insert_eq; state_cbn;
  reflexivity.

Ltac fss_cbn :=
  cbn beta iota zeta delta
    [attr sysuser phase phasename maxphase ps ai haveai
     set_attr set_phase set_ai set_haveai on_fss].

(** The same, in a hypothesis, and without the comparisons. *)
Ltac state_cbn_in H :=
  cbn beta iota zeta delta
    [vers key t tr cchal tbuf authkey secret speakfor
     set_vers set_key set_t set_tr set_cchal set_tbuf set_secret set_speakfor] in H.

Ltac fields_cbn :=
  cbn beta iota zeta delta
    [vers key t tr cchal tbuf authkey secret speakfor
     set_vers set_key set_t set_tr set_cchal set_tbuf set_secret set_speakfor].

(** Closed goals, by evaluation. *)
Ltac by_compute := vm_compute; first [reflexivity | done | lia].
Ltac by_decide := apply (bool_decide_unpack _); vm_compute; exact I.

(** ** Basic facts *)

Lemma uint_lt_small (n m : Z) :
  0 ≤ n < 2 ^ 32 → 0 ≤ m < 2 ^ 32 → uint_lt n m = (n <? m).
Proof.
  intros Hn Hm. unfold uint_lt.
  by rewrite !Z.mod_small by lia.
Qed.

Lemma uint_lt_true (n m : Z) :
  0 ≤ n < 2 ^ 32 → 0 ≤ m < 2 ^ 31 → n < m → uint_lt n m = true.
Proof.
  intros Hn Hm Hlt. rewrite uint_lt_small by lia. by apply Z.ltb_lt.
Qed.

Lemma uint_lt_false (n m : Z) :
  0 ≤ n < 2 ^ 32 → 0 ≤ m < 2 ^ 31 → m ≤ n → uint_lt n m = false.
Proof.
  intros Hn Hm Hle. rewrite uint_lt_small by lia. by apply Z.ltb_ge.
Qed.

Lemma length_poke (dst src : bytes) (off : nat) :
  (off + length src ≤ length dst)%nat → length (poke dst off src) = length dst.
Proof.
  intros H. unfold poke. rewrite !length_app, length_take, length_drop. lia.
Qed.

Lemma length_memmove (dst src : bytes) (off n : nat) :
  (off + n ≤ length dst)%nat → length (memmove dst off src n) = length dst.
Proof.
  intros H. unfold memmove. apply length_poke.
  rewrite length_take. lia.
Qed.

Lemma poke_all (dst src : bytes) :
  length src = length dst → poke dst 0 src = src.
Proof.
  intros H. unfold poke. simpl. rewrite drop_ge by lia. apply app_nil_r.
Qed.

Lemma memmove_all (dst src : bytes) (n : nat) :
  length dst = n → length src = n → memmove dst 0 src n = src.
Proof.
  intros Hd Hs. unfold memmove. rewrite firstn_all2 by lia.
  apply poke_all. lia.
Qed.

(** The staged authenticator is what a later read copies out. *)
Lemma poke_read (dst src : bytes) (off : nat) :
  (off ≤ length dst)%nat →
  take (length src) (drop off (poke dst off src)) = src.
Proof.
  intros H. unfold poke.
  rewrite drop_app_length' by (rewrite length_take; lia).
  by rewrite take_app_length.
Qed.

Section Facts.
Context {E : Env}.

Lemma tail_from_head (p : Z) : ∃ l, tail_from p = p :: l.
Proof.
  unfold tail_from.
  repeat match goal with
         | |- context [?a =? ?b] => destruct (Z.eqb_spec a b); [subst; by eexists|]
         end.
  by eexists.
Qed.

End Facts.

Section Errors.
Context {E : Env}.

Lemma read_size_None (p : Z) : p ∉ read_phases → read_size p = None.
Proof.
  unfold read_phases, read_size. rewrite !not_elem_of_cons. intros (?&?&?&?&_).
  repeat match goal with
         | |- context [?a =? ?b] => destruct (Z.eqb_spec a b); [done|]
         end.
  done.
Qed.

Lemma write_size_None (p : Z) : p ∉ write_phases → write_size p = None.
Proof.
  unfold write_phases, write_size. rewrite !not_elem_of_cons. intros (?&?&?&?&_).
  repeat match goal with
         | |- context [?a =? ?b] => destruct (Z.eqb_spec a b); [done|]
         end.
  done.
Qed.

(** The dispatch of [p9skread], by the size table. *)
Lemma p9skread_None fss n w :
  read_size (phase fss) = None →
  p9skread fss n w = inr ((RpcPhase "read", fss, n, []), w).
Proof.
  unfold read_size, p9skread.
  repeat match goal with
         | |- context [?a =? ?b] => destruct (Z.eqb_spec a b); [done|]
         end.
  done.
Qed.

Lemma p9skwrite_None ki fss a n w :
  write_size (phase fss) = None →
  p9skwrite ki fss a n w = inr ((RpcPhase "write", fss), w).
Proof.
  unfold write_size, p9skwrite.
  repeat match goal with
         | |- context [?a =? ?b] => destruct (Z.eqb_spec a b); [done|]
         end.
  done.
Qed.

Lemma p9skread_toosmall fss n w m :
  read_size (phase fss) = Some m →
  uint_lt n (Z.of_nat m) = true →
  p9skread fss n w = inr ((RpcToosmall (Z.of_nat m), fss, n, []), w).
Proof.
  unfold read_size, p9skread.
  repeat match goal with
         | |- context [?a =? ?b] =>
             destruct (Z.eqb_spec a b);
             [intros [= <-]; cbv zeta; by intros ->|]
         end.
  done.
Qed.

Lemma p9skwrite_toosmall ki fss a n w m :
  write_size (phase fss) = Some m →
  uint_lt n (Z.of_nat m) = true →
  p9skwrite ki fss a n w = inr ((RpcToosmall (Z.of_nat m), fss), w).
Proof.
  unfold write_size, p9skwrite.
  repeat match goal with
         | |- context [?a =? ?b] =>
             destruct (Z.eqb_spec a b);
             [intros [= <-]; cbv zeta; by intros ->|]
         end.
  done.
Qed.

(** C5. In every phase that does not support a read, [p9skread] returns the
    phase error and leaves the session, the capacity, the output buffer and
    the store as they were; in every phase that does not support a write,
    [p9skwrite] does the same. *)
Theorem phase_error_leaves_session ki fss a n w :
  (phase fss ∉ read_phases →
   p9skread fss n w = inr ((RpcPhase "read", fss, n, []), w)) ∧
  (phase fss ∉ write_phases →
   p9skwrite ki fss a n w = inr ((RpcPhase "write", fss), w)).
Proof.
  split; intros H.
  - by apply p9skread_None, read_size_None.
  - by apply p9skwrite_None, write_size_None.
Qed.

End Errors.

Section Sizes.
Context {E : Env} {OK : EnvOk E}.

Lemma read_size_int p m : read_size p = Some m → 0 < Z.of_nat m < 2 ^ 31.
Proof.
  pose proof CHALLEN_int. pose proof TICKREQLEN_int.
  pose proof AUTHENTLEN_int. pose proof TICKETLEN_int.
  unfold read_size.
  repeat match goal with
         | |- context [?a =? ?b] => destruct (a =? b); [intros [= <-]; lia|]
         end.
  done.
Qed.

Lemma write_size_int p m : write_size p = Some m → 0 < Z.of_nat m < 2 ^ 31.
Proof.
  pose proof CHALLEN_int. pose proof TICKREQLEN_int.
  pose proof AUTHENTLEN_int. pose proof TICKETLEN_int.
  unfold write_size.
  repeat match goal with
         | |- context [?a =? ?b] => destruct (a =? b); [intros [= <-]; lia|]
         end.
  done.
Qed.

Lemma load_State_live w fss s :
  live w fss s → load_State (ps fss) w = inr (s, w).
Proof. intros (l & -> & Hl). unfold load_State. by rewrite Hl. Qed.

Lemma store_State_live w l b s :
  heap w !! l = Some b →
  store_State (Some l) s w = inr ((), set_heap (<[l := BState s]> (heap w)) w).
Proof. intros Hl. unfold store_State. by rewrite Hl. Qed.

Lemma fresh_heap_ne (h : gmap loc Block) l b :
  h !! l = Some b → l ≠ fresh (dom h).
Proof.
  intros Hl ->. apply (is_fresh (dom h)). apply elem_of_dom. eauto.
Qed.

(** With room for the answer, a read of a live session succeeds and
    produces exactly the bytes its phase requires. *)
Lemma p9skread_ok fss n w m s :
  0 ≤ n < 2 ^ 32 →
  read_size (phase fss) = Some m →
  Z.of_nat m ≤ n →
  live w fss s → wf_State s →
  ∃ fss' out w',
    p9skread fss n w = inr ((RpcOk, fss', Z.of_nat m, out), w') ∧
    length out = m.
Proof.
  intros Hn Hm Hle Hlive (Hc & Ht & Hr).
  pose proof (read_size_int _ _ Hm) as Hint.
  pose proof (uint_lt_false n (Z.of_nat m) Hn ltac:(lia) Hle) as Hlt.
  revert Hm. unfold read_size, p9skread.
  repeat match goal with
         | |- context [?a =? ?b] =>
             destruct (Z.eqb_spec a b);
             [intros [= <-]; cbv zeta; rewrite Hlt; unM;
              rewrite (load_State_live _ _ _ Hlive)|]
         end; [..|done].
  - eexists _, _, _. split; [done|]. rewrite length_take. lia.
  - eexists _, _, _. split; [done|]. apply convTR2M_length.
  - eexists _, _, _. split; [done|]. rewrite length_take. lia.
  - destruct Hlive as (l & Hps & Hl).
    unfold emalloc, store_bytes. cbn [secret set_secret heap set_heap].
    rewrite lookup_insert_eq. cbn [ps set_ai set_haveai].
    rewrite Hps. unfold store_State. cbn [heap set_heap].
    rewrite lookup_insert_ne by (symmetry; eapply fresh_heap_ne; eauto).
    rewrite lookup_insert_ne by (symmetry; eapply fresh_heap_ne; eauto).
    rewrite Hl.
    eexists _, _, _. split; [done|]. rewrite length_take, length_drop. lia.
Qed.

(** C6. In a phase that supports the operation, a capacity below the
    required size makes [p9skread] (resp. [p9skwrite]) return the too-small
    error carrying exactly that size, with the session, the buffer and the
    store as they were; with enough room, a read of a live session returns
    RpcOk, sets the count to the required size and produces that many
    bytes. *)
Theorem toosmall_reports_required_size ki fss a n w m :
  0 ≤ n < 2 ^ 32 →
  (read_size (phase fss) = Some m → n < Z.of_nat m →
   p9skread fss n w = inr ((RpcToosmall (Z.of_nat m), fss, n, []), w)) ∧
  (write_size (phase fss) = Some m → n < Z.of_nat m →
   p9skwrite ki fss a n w = inr ((RpcToosmall (Z.of_nat m), fss), w)) ∧
  (read_size (phase fss) = Some m → Z.of_nat m ≤ n →
   ∀ s, live w fss s → wf_State s →
   ∃ fss' out w',
     p9skread fss n w = inr ((RpcOk, fss', Z.of_nat m, out), w') ∧
     length out = m).
Proof.
  intros Hn. split_and!.
  - intros Hm Hlt. apply p9skread_toosmall; [done|].
    pose proof (read_size_int _ _ Hm). apply uint_lt_true; lia.
  - intros Hm Hlt. apply p9skwrite_toosmall; [done|].
    pose proof (write_size_int _ _ Hm). apply uint_lt_true; lia.
  - intros Hm Hle s Hlive Hwf. by eapply p9skread_ok.
Qed.

End Sizes.

Section Phases.
Context {E : Env} {OK : EnvOk E}.

Lemma Established_ne (p : Z) : 0 ≤ p < Maxphase → Established ≠ p.
Proof. pose proof Established_out. intros ? <-. tauto. Qed.

Lemma tail_from_Established : tail_from Established = [Established].
Proof.
  pose proof Established_out as H. unfold tail_from.
  repeat match goal with
         | |- context [?a =? ?b] =>
             destruct (Z.eqb_spec a b) as [Heq|_];
             [exfalso; apply H; rewrite Heq; phase_lia|]
         end.
  done.
Qed.

Lemma follows_client_end : follows CNeedAuth Established.
Proof.
  split; [symmetry; by apply Established_ne|].
  by rewrite tail_from_Established.
Qed.

Lemma follows_server_end : follows SHaveAuth Established.
Proof.
  split; [symmetry; by apply Established_ne|].
  by rewrite tail_from_Established.
Qed.

Lemma p9skread_phase fss n w rc fss' n' out w' :
  p9skread fss n w = inr ((rc, fss', n', out), w') →
  phase fss' = phase fss ∨ (rc = RpcOk ∧ follows (phase fss) (phase fss')).
Proof.
  unfold p9skread. unM. intros H.
  repeat (case_match; simplify_eq/=); auto; right; (split; [done|]);
    repeat match goal with
           | H : (_ =? _) = true |- _ => apply Z.eqb_eq in H; rewrite H
           end;
    first [apply follows_server_end | by split].
Qed.

Lemma p9skwrite_phase ki fss a n w rc fss' w' :
  p9skwrite ki fss a n w = inr ((rc, fss'), w') →
  phase fss' = phase fss ∨ (rc = RpcOk ∧ follows (phase fss) (phase fss')).
Proof.
  unfold p9skwrite. unM. intros H.
  repeat (case_match; simplify_eq/=); auto; right; (split; [done|]);
    repeat match goal with
           | H : (_ =? _) = true |- _ => apply Z.eqb_eq in H; rewrite H
           end;
    first [apply follows_client_end | by split].
Qed.

Lemma step_phase o fss w rc fss' w' :
  step o fss w = inr ((rc, fss'), w') →
  phase fss' = phase fss ∨ (rc = RpcOk ∧ follows (phase fss) (phase fss')).
Proof.
  destruct o as [n|ki a n]; simpl.
  - unM. destruct (p9skread fss n w) as [|[[[[rc1 f1] n1] o1] w1]] eqn:Hr; [done|].
    intros [= <- <- <-]. by eapply p9skread_phase.
  - apply p9skwrite_phase.
Qed.

Lemma phases_head ops fss w : ∃ l, phases ops fss w = phase fss :: l.
Proof. destruct ops; by eexists. Qed.

Lemma squash_cons_eq x l : squash (x :: x :: l) = squash (x :: l).
Proof. simpl. by rewrite decide_True. Qed.

Lemma squash_cons_ne x y l : x ≠ y → squash (x :: y :: l) = x :: squash (y :: l).
Proof. intros. simpl. by rewrite decide_False. Qed.

(** A run goes through the phases of its sequence, one by one. *)
Lemma phases_tail_from ops : ∀ fss w,
  squash (phases ops fss w) `prefix_of` tail_from (phase fss).
Proof.
  induction ops as [|o ops IH]; intros fss w.
  - simpl. destruct (tail_from_head (phase fss)) as [l ->].
    by apply prefix_cons, prefix_nil.
  - cbn [phases].
    destruct (step o fss w) as [|[[rc fss'] w']] eqn:Hs.
    + destruct (tail_from_head (phase fss)) as [l ->].
      by apply prefix_cons, prefix_nil.
    + specialize (IH fss' w').
      destruct (phases_head ops fss' w') as [l Hl]. rewrite Hl in *.
      destruct (step_phase _ _ _ _ _ _ Hs) as [Heq|(_ & Hne & Htl)].
      * rewrite Heq in *. by rewrite squash_cons_eq.
      * rewrite squash_cons_ne by done. rewrite Htl. by apply prefix_cons.
Qed.

Lemma p9skinit_phase p fss w fss1 w1 :
  p9skinit p fss w = inr ((RpcOk, fss1), w1) →
  tail_from (phase fss1) =
  phase_seq (negb (isclient (_strfindattr (attr fss) "role") =? 0)) p.
Proof.
  unfold p9skinit. unM. intros H.
  repeat (case_match; simplify_eq/=); done.
Qed.

Lemma phase_seq_NoDup client p : NoDup (phase_seq client p).
Proof.
  assert (NoDup client_seq ∧ NoDup server_seq) as [Hc Hs].
  { pose proof Established_out as H.
    unfold client_seq, server_seq.
    split; repeat (apply NoDup_cons; split;
                   [rewrite ?not_elem_of_cons; split_and?;
                    try phase_lia; try apply not_elem_of_nil|]);
      apply NoDup_nil_2. }
  unfold phase_seq.
  destruct client, p; simpl; try done;
    first [by apply NoDup_cons in Hc as [_ ?] | by apply NoDup_cons in Hs as [_ ?]].
Qed.

(** C4. After a successful [p9skinit], whatever reads and writes follow,
    the phases the session goes through are an initial part of the one
    sequence fixed by its role and variant, in order and each step to the
    next phase; the sequence has no repetition, so no phase is revisited
    and none is skipped. *)
Theorem phases_follow_sequence p fss w fss1 w1 ops :
  p9skinit p fss w = inr ((RpcOk, fss1), w1) →
  let client := negb (isclient (_strfindattr (attr fss) "role") =? 0) in
  NoDup (phase_seq client p) ∧
  squash (phases ops fss1 w1) `prefix_of` phase_seq client p.
Proof.
  intros Hi client. split; [apply phase_seq_NoDup|].
  unfold client. rewrite <- (p9skinit_phase _ _ _ _ _ Hi).
  apply phases_tail_from.
Qed.

End Phases.

Section Branches.
Context {E : Env} {OK : EnvOk E}.

(** The server's write at [SNeedTicket], step by step. *)
Lemma p9skwrite_SNeedTicket ki fss a n w s k l :
  phase fss = SNeedTicket →
  0 ≤ n < 2 ^ 32 → Z.of_nat (TICKETLEN + AUTHENTLEN) ≤ n →
  ps fss = Some l → heap w !! l = Some (BState s) → key s = Some k →
  let tk := convM2T (take TICKETLEN a) (k_priv k) in
  let auth := set_a_num AuthAs
                (convM2A (take AUTHENTLEN (drop TICKETLEN a)) (t_key tk)) in
  let s' := set_tbuf (poke (tbuf s) TICKETLEN (convA2M auth (t_key tk)))
              (set_t tk s) in
  p9skwrite ki fss a n w =
  inr ((RpcOk, set_phase SHaveAuth fss),
       set_heap (<[l := BState s']> (heap w)) (set_g_auth auth w)).
Proof.
  intros Hp Hn Hle Hps Hl Hk tk auth s'.
  pose proof TICKETLEN_int.
  unfold p9skwrite. dispatch Hp.
  rewrite uint_lt_false by lia. unM.
  unfold load_State, store_State. rewrite Hps, Hl, Hk. simpl.
  by rewrite Hl.
Qed.

(** The server's read at [SHaveAuth], step by step. *)
Lemma p9skread_SHaveAuth fss n w s l :
  phase fss = SHaveAuth →
  0 ≤ n < 2 ^ 32 → Z.of_nat AUTHENTLEN ≤ n →
  ps fss = Some l → heap w !! l = Some (BState s) →
  let ls := fresh (dom (heap w)) in
  let fss' :=
    set_phase Established
      (set_haveai 1
         (set_ai (set_ai_secret (Some ls) 8
                    (set_ai_uids (t_cuid (t s)) (t_suid (t s)) (ai fss))) fss)) in
  p9skread fss n w =
  inr ((RpcOk, fss', Z.of_nat AUTHENTLEN, take AUTHENTLEN (drop TICKETLEN (tbuf s))),
       set_heap (<[l := BState (set_secret (Some ls) s)]>
                   (<[ls := BBytes (poke (replicate 8 0) 0 (des56to64 (t_key (t s))))]>
                      (<[ls := BBytes (replicate 8 0)]> (heap w)))) w).
Proof.
  intros Hp Hn Hle Hps Hl ls fss'.
  pose proof AUTHENTLEN_int.
  assert (l ≠ ls) as Hne by (by eapply fresh_heap_ne).
  unfold p9skread. dispatch Hp.
  rewrite uint_lt_false by lia. unM.
  unfold load_State, emalloc, store_bytes, store_State.
  rewrite Hps, Hl. cbn [secret set_secret heap set_heap ps set_ai set_haveai].
  rewrite lookup_insert_eq. cbn [heap set_heap].
  rewrite Hps. rewrite !lookup_insert_ne by done. by rewrite Hl.
Qed.

(** C9. The server authenticator that [p9skwrite] stages at [SNeedTicket],
    and that the next [p9skread] hands out, is the encoding under the
    ticket's session key of the client's authenticator as decoded, with
    the purpose field set to [AuthAs] and the challenge and the id copied
    through as they came. *)
Theorem server_authenticator_is_peer_retagged ki fss a n w s k :
  phase fss = SNeedTicket →
  0 ≤ n < 2 ^ 32 → Z.of_nat (TICKETLEN + AUTHENTLEN) ≤ n →
  live w fss s → wf_State s → key s = Some k →
  let tk := convM2T (take TICKETLEN a) (k_priv k) in
  let peer := convM2A (take AUTHENTLEN (drop TICKETLEN a)) (t_key tk) in
  let staged := convA2M (mkAuthenticator AuthAs (a_chal peer) (a_id peer)) (t_key tk) in
  ∃ fss1 w1,
    p9skwrite ki fss a n w = inr ((RpcOk, fss1), w1) ∧
    phase fss1 = SHaveAuth ∧
    (∃ s1, live w1 fss1 s1 ∧
           take AUTHENTLEN (drop TICKETLEN (tbuf s1)) = staged ∧
           take TICKETLEN (tbuf s1) = take TICKETLEN (tbuf s)) ∧
    ∀ n2, 0 ≤ n2 < 2 ^ 32 → Z.of_nat AUTHENTLEN ≤ n2 →
      ∃ fss2 w2,
        p9skread fss1 n2 w1 = inr ((RpcOk, fss2, Z.of_nat AUTHENTLEN, staged), w2).
Proof.
  intros Hp Hn Hle (l & Hps & Hl) (_ & Ht & _) Hk tk peer staged.
  pose proof (p9skwrite_SNeedTicket ki fss a n w s k l Hp Hn Hle Hps Hl Hk) as Hw.
  cbv zeta in Hw. fold tk peer in Hw.
  change (set_a_num AuthAs peer) with (mkAuthenticator AuthAs (a_chal peer) (a_id peer)) in Hw.
  fold staged in Hw.
  assert (take AUTHENTLEN (drop TICKETLEN (poke (tbuf s) TICKETLEN staged)) = staged)
    as Hout.
  { rewrite <- (convA2M_length (mkAuthenticator AuthAs (a_chal peer) (a_id peer)) (t_key tk)).
    apply poke_read. lia. }
  eexists _, _. split; [exact Hw|]. split; [done|]. split.
  - eexists. split.
    + exists l. split; [done|]. cbn [heap set_heap]. apply lookup_insert_eq.
    + split; [exact Hout|]. cbn [tbuf set_tbuf]. unfold poke.
      rewrite take_app_le by (rewrite length_take; lia).
      rewrite take_take. f_equal. lia.
  - intros n2 Hn2 Hle2.
    eexists _, _.
    erewrite p9skread_SHaveAuth; [|done|done|done|exact Hps|cbn [heap set_heap]; apply lookup_insert_eq].
    cbn [tbuf set_tbuf]. rewrite Hout. done.
Qed.

End Branches.

Section Flawed.
Context {E : Env} {OK : EnvOk E}.

(** The client's write at [CNeedTreq] always leaves the decoded request in
    the session, and under the flawed variant its challenge in [cchal],
    whatever the key store and the ticket service answer. *)
Lemma p9skwrite_CNeedTreq_chal ki fss a n w s :
  phase fss = CNeedTreq →
  0 ≤ n < 2 ^ 32 → Z.of_nat TICKREQLEN ≤ n →
  live w fss s → wf_State s → vers s = 2 →
  ∃ rc fss1 w1 s1,
    p9skwrite ki fss a n w = inr ((rc, fss1), w1) ∧
    live w1 fss1 s1 ∧
    tr s1 = convM2TR (take TICKREQLEN a) ∧
    cchal s1 = tr_chal (tr s1).
Proof.
  intros Hp Hn Hle (l & Hps & Hl) (Hc & _ & _) Hv.
  pose proof TICKREQLEN_int.
  unfold p9skwrite. dispatch Hp.
  rewrite uint_lt_false by lia. unM.
  unfold load_State, store_State. rewrite Hps, Hl.
  cbn [vers set_tr tr cchal]. rewrite Hv. change (2 =? 2) with true. cbv iota.
  rewrite memmove_all by (done || apply convM2TR_chal_length).
  repeat case_match; simplify_eq/=; rewrite ?Hl;
    (eexists _, _, _, _; split; [done|]; split;
     [eexists; split; [done|]; cbn [heap set_heap]; apply lookup_insert_eq|done]).
Qed.

(** The server's initialisation under the flawed variant. *)
Lemma p9skinit_server_flawed fss w fss1 w1 :
  isclient (_strfindattr (attr fss) "role") = 0 →
  p9skinit p9sk2 fss w = inr ((RpcOk, fss1), w1) →
  phase fss1 = SHaveTreq ∧
  ∃ s1, live w1 fss1 s1 ∧ vers s1 = 2 ∧ cchal s1 = tr_chal (tr s1).
Proof.
  intros Hr. unfold p9skinit. rewrite Hr. unM.
  change (0 <? 0) with false. change (negb (0 =? 0)) with false. cbv iota.
  unfold emalloc, memrandom_bytes, store_State, deref_Key, safecpy, free. unM.
  intros H. repeat (case_match; simplify_eq/=).
  split; [done|]. eexists. split.
  - eexists. split; [done|]. cbn [heap set_heap]. apply lookup_insert_eq.
  - split; [done|]. cbn [cchal set_cchal tr set_tr tr_chal set_tr_chal].
    rewrite !memmove_all; try done;
      rewrite ?length_replicate, ?memrandom_length; try done.
    rewrite memmove_all; rewrite ?length_replicate, ?memrandom_length; done.
Qed.

(** The client's initialisation under the flawed variant draws nothing
    from the random source and leaves [cchal] as [emalloc] gave it. *)
Lemma p9skinit_client_flawed fss w rc fss1 w1 :
  isclient (_strfindattr (attr fss) "role") > 0 →
  p9skinit p9sk2 fss w = inr ((rc, fss1), w1) →
  rc = RpcOk ∧ phase fss1 = CNeedTreq ∧ entropy w1 = entropy w ∧
  ∃ s1, live w1 fss1 s1 ∧ vers s1 = 2 ∧ cchal s1 = replicate CHALLEN 0.
Proof.
  intros Hr. unfold p9skinit.
  destruct (Z.ltb_spec (isclient (_strfindattr (attr fss) "role")) 0); [lia|].
  destruct (Z.eqb_spec (isclient (_strfindattr (attr fss) "role")) 0); [lia|].
  unM. unfold emalloc, store_State. simpl. rewrite lookup_insert_eq.
  intros [= <- <- <-]. split_and!; try done.
  eexists. split; [eexists; split; [done|]; cbn [heap set_heap];
                   apply lookup_insert_eq|].
  done.
Qed.

(** C7. Under the flawed variant the client's initialisation generates no
    challenge; once the client has consumed a ticket request its channel
    challenge is the challenge of that request, which is the server's own
    when the bytes are the server's encoded request; and after the
    server's initialisation its channel-challenge copy is the challenge of
    its own ticket request. *)
Theorem flawed_variant_shares_challenge ki fss a n w s :
  (isclient (_strfindattr (attr fss) "role") > 0 →
   ∀ rc fss1 w1, p9skinit p9sk2 fss w = inr ((rc, fss1), w1) →
     phase fss1 = CNeedTreq ∧ entropy w1 = entropy w ∧
     ∃ s1, live w1 fss1 s1 ∧ vers s1 = 2 ∧ cchal s1 = replicate CHALLEN 0) ∧
  (phase fss = CNeedTreq → 0 ≤ n < 2 ^ 32 → Z.of_nat TICKREQLEN ≤ n →
   live w fss s → wf_State s → vers s = 2 →
   ∃ rc fss1 w1 s1,
     p9skwrite ki fss a n w = inr ((rc, fss1), w1) ∧ live w1 fss1 s1 ∧
     cchal s1 = tr_chal (convM2TR (take TICKREQLEN a)) ∧
     ∀ srv, take TICKREQLEN a = convTR2M srv → convM2TR (convTR2M srv) = srv →
            cchal s1 = tr_chal srv) ∧
  (isclient (_strfindattr (attr fss) "role") = 0 →
   ∀ fss1 w1, p9skinit p9sk2 fss w = inr ((RpcOk, fss1), w1) →
     phase fss1 = SHaveTreq ∧
     ∃ s1, live w1 fss1 s1 ∧ cchal s1 = tr_chal (tr s1)).
Proof.
  split_and!.
  - intros Hr rc fss1 w1 Hi.
    by destruct (p9skinit_client_flawed _ _ _ _ _ Hr Hi) as (_ & ? & ? & ?).
  - intros Hp Hn Hle Hlive Hwf Hv.
    destruct (p9skwrite_CNeedTreq_chal ki fss a n w s Hp Hn Hle Hlive Hwf Hv)
      as (rc & fss1 & w1 & s1 & Hw & Hl1 & Htr & Hc).
    exists rc, fss1, w1, s1. split_and!; try done.
    + by rewrite Hc, Htr.
    + intros srv Ha Hrt. by rewrite Hc, Htr, Ha, Hrt.
  - intros Hr fss1 w1 Hi.
    destruct (p9skinit_server_flawed _ _ _ _ Hr Hi) as (? & s1 & ? & _ & ?).
    eauto.
Qed.

End Flawed.

Section Speakfor.
Context {E : Env}.

Lemma heap_poke l v w : heap (poke_speakfor l v w) = alter (with_speakfor v) l (heap w).
Proof. done. Qed.

Lemma p9skread_speakfor fss n w l s v :
  ps fss = Some l → heap w !! l = Some (BState s) →
  p9skread fss n (poke_speakfor l v w) =
  on_world (poke_speakfor l v) (p9skread fss n w).
Proof.
  intros Hps Hl.
  assert (l ≠ fresh (dom (heap w))) as Hne by (by eapply fresh_heap_ne).
  assert (fresh (dom (heap w)) ≠ l) as Hne' by done.
  unfold p9skread.
  repeat match goal with
         | |- context [phase fss =? ?b] => destruct (phase fss =? b)
         end; try done; cbv zeta;
  match goal with |- context [uint_lt ?a ?b] => destruct (uint_lt a b) end;
  try done; unM; unfold load_State; rewrite Hps, heap_poke, lookup_alter_eq, Hl;
  try done.
  unfold emalloc, store_bytes, store_State.
  cbn [heap set_heap poke_speakfor ps set_ai set_haveai secret set_secret
       fmap option_fmap option_map with_speakfor].
  rewrite dom_alter_L, Hps.
  rewrite !lookup_insert_eq.
  cbn [heap set_heap].
  rewrite !lookup_insert_ne by done. rewrite lookup_alter_eq, Hl.
  cbn [fmap option_fmap option_map with_speakfor on_world].
  do 2 f_equal. unfold poke_speakfor, set_heap. cbn [heap closed entropy g_auth g_trbuf g_tbuf]. f_equal.
  rewrite alter_insert_eq. cbn [with_speakfor].
  rewrite !insert_alter_ne by done. by rewrite insert_alter_eq.
Qed.

Lemma p9skwrite_speakfor ki fss a n w l s v :
  ps fss = Some l → heap w !! l = Some (BState s) →
  p9skwrite ki fss a n (poke_speakfor l v w) =
  on_world (poke_speakfor l v) (p9skwrite ki fss a n w).
Proof.
  intros Hps Hl.
  unfold p9skwrite.
  repeat match goal with
         | |- context [phase fss =? ?b] => destruct (phase fss =? b)
         end; try done; cbv zeta;
  match goal with |- context [uint_lt ?a ?b] => destruct (uint_lt a b) end;
  try done; unM; unfold load_State; rewrite Hps, heap_poke, lookup_alter_eq, Hl;
  unfold store_State, deref_Key; unM; state_cbn.
  - rewrite ?heap_poke, lookup_alter_eq, Hl. world_eq.
  - destruct (vers s =? 2); state_cbn;
      destruct (findkey _ _ _) as [ret [k|]];
      destruct (decide (ret = RpcOk)); state_cbn;
      try destruct (gettickets _ _ _ _) as [r tb];
      try destruct (r <? 0); state_cbn;
      rewrite ?heap_poke, ?lookup_alter_eq, ?Hl; world_eq.
  - destruct (key s) as [k|]; [|done]. state_cbn.
    rewrite ?heap_poke, lookup_alter_eq, Hl. world_eq.
  - world_eq.
Qed.

Lemma p9skclose_speakfor fss w l s v :
  ps fss = Some l → heap w !! l = Some (BState s) →
  p9skclose fss (poke_speakfor l v w) =
  on_world (poke_speakfor l v) (p9skclose fss w).
Proof.
  intros Hps Hl. unfold p9skclose. unM.
  unfold load_State. rewrite Hps, heap_poke, lookup_alter_eq, Hl. state_cbn.
  unfold closekey, free.
  assert (∀ h : gmap loc Block,
            delete l (alter (with_speakfor v) l h) =
            alter (with_speakfor v) l (delete l h)) as Hdel.
  { intros h. apply map_eq. intros i.
    rewrite lookup_alter, !lookup_delete, lookup_alter.
    by repeat case_decide. }
  destruct (secret s) as [l2|]; unM; state_cbn.
  - rewrite heap_poke.
    destruct (decide (l = l2)) as [<-|Hne].
    + rewrite lookup_alter_eq, Hl. state_cbn.
      destruct (key s); unM; state_cbn; rewrite ?heap_poke;
        state_cbn; by rewrite !lookup_delete_eq.
    + assert (l2 ≠ l) as Hne' by done.
      rewrite lookup_alter_ne by done.
      destruct (heap w !! l2) as [b2|]; [|done]. state_cbn.
      destruct (key s); unM; state_cbn;
        rewrite !lookup_delete_ne, lookup_alter_eq, Hl by done; state_cbn;
        unfold poke_speakfor; state_cbn;
        by rewrite delete_alter_ne, Hdel by done.
  - destruct (key s); unM; state_cbn;
      rewrite heap_poke, lookup_alter_eq, Hl; state_cbn;
      unfold poke_speakfor; state_cbn; by rewrite Hdel.
Qed.

Lemma p9skinit_speakfor p fss w l s v :
  heap w !! l = Some (BState s) →
  p9skinit p fss (poke_speakfor l v w) =
  on_world (poke_speakfor l v) (p9skinit p fss w).
Proof.
  intros Hl.
  assert (l ≠ fresh (dom (heap w))) as Hne by (by eapply fresh_heap_ne).
  assert (fresh (dom (heap w)) ≠ l) as Hne' by done.
  unfold p9skinit.
  destruct (_ <? 0); [done|]. unM. unfold emalloc.
  rewrite heap_poke, dom_alter_L.
  destruct p; unM; [..|done]; destruct (negb _); state_cbn.
  all: unfold memrandom_bytes, store_State, deref_Key, safecpy, free; unM; state_cbn.
  all: rewrite ?heap_poke, ?lookup_insert_eq; state_cbn.
  all: try (destruct (findkey _ _ _) as [ret [k|]]; destruct (decide (ret = RpcOk));
            state_cbn; try done;
            repeat (match goal with
                    | |- context [_strfindattr ?a ?b] => destruct (_strfindattr a b)
                    end; state_cbn; try done)).
  all: rewrite ?heap_poke, ?lookup_insert_eq; state_cbn.
  all: unfold poke_speakfor; state_cbn.
  all: rewrite ?insert_insert_eq, ?delete_insert_eq.
  all: rewrite ?insert_alter_ne by done.
  all: rewrite ?delete_alter_ne by done.
  all: try reflexivity.
Qed.

(** Reads and writes leave the speak-for field of the session as it was. *)
Lemma step_keeps_speakfor o fss w r w' l s :
  ps fss = Some l → heap w !! l = Some (BState s) →
  step o fss w = inr (r, w') →
  ∃ s', heap w' !! l = Some (BState s') ∧ speakfor s' = speakfor s.
Proof.
  intros Hps Hl.
  pose proof (fresh_heap_ne _ _ _ Hl) as Hne.
  destruct o as [n|ki a n]; cbn [step]; unfold p9skread, p9skwrite; unM;
    unfold load_State, store_State, store_bytes, emalloc, deref_Key; unM;
    rewrite Hps; intros H;
    repeat (case_match; simplify_eq/=);
    rewrite ?lookup_insert_eq; eauto.
Qed.

(** C10. No operation reads or writes the speak-for field of a session:
    with the field of the live session set to any value beforehand, a read,
    a write, a close and an initialisation return what they return
    otherwise and leave the store they leave otherwise, up to that very
    field; after a read or a write the field holds what it held; and the
    session that an initialisation creates holds in it what [emalloc]
    put there. *)
Theorem speakfor_never_used p ki fss a n w l s v :
  ps fss = Some l → heap w !! l = Some (BState s) →
  (∀ o, step o fss (poke_speakfor l v w) =
        on_world (poke_speakfor l v) (step o fss w)) ∧
  p9skread fss n (poke_speakfor l v w) =
    on_world (poke_speakfor l v) (p9skread fss n w) ∧
  p9skwrite ki fss a n (poke_speakfor l v w) =
    on_world (poke_speakfor l v) (p9skwrite ki fss a n w) ∧
  p9skclose fss (poke_speakfor l v w) =
    on_world (poke_speakfor l v) (p9skclose fss w) ∧
  (∀ fss0, p9skinit p fss0 (poke_speakfor l v w) =
           on_world (poke_speakfor l v) (p9skinit p fss0 w)) ∧
  (∀ o r w', step o fss w = inr (r, w') →
     ∃ s', heap w' !! l = Some (BState s') ∧ speakfor s' = speakfor s) ∧
  (∀ fss0 fss1 w1, p9skinit p fss0 w = inr ((RpcOk, fss1), w1) →
     ∃ s1, live w1 fss1 s1 ∧ speakfor s1 = speakfor zero_State).
Proof.
  intros Hps Hl. split_and!.
  - intros [n0|ki0 a0 n0]; cbn [step].
    + unM. rewrite (p9skread_speakfor _ _ _ _ _ _ Hps Hl).
      by destruct (p9skread fss n0 w) as [|[[[[??]?]?]?]].
    + by eapply p9skwrite_speakfor.
  - by eapply p9skread_speakfor.
  - by eapply p9skwrite_speakfor.
  - by eapply p9skclose_speakfor.
  - intros fss0. by eapply p9skinit_speakfor.
  - intros o r w'. by apply step_keeps_speakfor.
  - intros fss0 fss1 w1. unfold p9skinit. unM.
    unfold emalloc, memrandom_bytes, store_State, deref_Key, safecpy, free. unM.
    intros H. repeat (case_match; simplify_eq/=);
      (eexists; split;
       [eexists; split; [done|]; cbn [heap set_heap]; apply lookup_insert_eq|done]).
Qed.

End Speakfor.

Module MockFacts.
Import Mock.

Lemma length_slice off n b : length (slice off n b) = n.
Proof.
  unfold slice. rewrite length_take, length_app, length_replicate. lia.
Qed.

Lemma length_str_bytes n s : length (str_bytes n s) = n.
Proof.
  unfold str_bytes. rewrite length_take, length_app, length_replicate. lia.
Qed.

Lemma length_crypt k b : length (crypt k b) = length b.
Proof. unfold crypt. apply length_imap. Qed.

(** The mock environment meets what the code relies on. *)
Lemma env_ok : EnvOk Mock.env.
Proof.
  split; try (cbn; unfold Maxphase; lia).
  - intros e n. change (length (mock_memrandom e n) = n).
    unfold mock_memrandom. by rewrite length_fmap, length_seq.
  - intros r. change (length (TR2M r) = 141%nat). unfold TR2M.
    rewrite !length_app, !length_str_bytes, length_slice. done.
  - intros a k. change (length (A2M a k) = 13%nat). unfold A2M.
    rewrite length_crypt, !length_app, length_slice. done.
  - intros b. change (length (slice 77 8 b) = 8%nat). apply length_slice.
  - intros k. change (length (slice 0 8 k) = 8%nat). apply length_slice.
Qed.

End MockFacts.

Section Terminal.
Context {E : Env} {OK : EnvOk E}.

(** The client's write at [CNeedAuth], step by step: the decoded
    authenticator goes to [auth] and nowhere else. *)
Lemma p9skwrite_CNeedAuth ki fss a n w s :
  phase fss = CNeedAuth →
  0 ≤ n < 2 ^ 32 → Z.of_nat AUTHENTLEN ≤ n →
  live w fss s →
  p9skwrite ki fss a n w =
  inr ((RpcOk,
        set_phase Established
          (set_haveai 1
             (set_ai (set_ai_uids (t_cuid (t s)) (t_suid (t s)) (ai fss)) fss))),
       set_g_auth (convM2A (take AUTHENTLEN a) (t_key (t s))) w).
Proof.
  intros Hp Hn Hle Hlive.
  pose proof AUTHENTLEN_int.
  unfold p9skwrite. dispatch Hp.
  rewrite uint_lt_false by lia. unM.
  by rewrite (load_State_live _ _ _ Hlive).
Qed.

(** C2, as the code has it. Neither write that consumes a peer
    authenticator looks at its purpose tag or its challenge: given the
    required size, the server's write at [SNeedTicket] and the client's
    write at [CNeedAuth] return RpcOk and move to the next phase for
    every buffer. *)
Theorem peer_authenticator_accepted_unchecked ki fss a n w s :
  0 ≤ n < 2 ^ 32 → live w fss s →
  (phase fss = SNeedTicket → Z.of_nat (TICKETLEN + AUTHENTLEN) ≤ n →
   is_Some (key s) →
   ∃ fss' w', p9skwrite ki fss a n w = inr ((RpcOk, fss'), w') ∧
              phase fss' = SHaveAuth) ∧
  (phase fss = CNeedAuth → Z.of_nat AUTHENTLEN ≤ n →
   ∃ fss' w', p9skwrite ki fss a n w = inr ((RpcOk, fss'), w') ∧
              phase fss' = Established ∧ haveai fss' = 1 ∧
              heap w' = heap w).
Proof.
  intros Hn Hlive. split.
  - intros Hp Hle [k Hk]. destruct Hlive as (l & Hps & Hl).
    eexists _, _. split; [by eapply p9skwrite_SNeedTicket|done].
  - intros Hp Hle. eexists _, _.
    split; [by eapply p9skwrite_CNeedAuth|done].
Qed.

(** What the client's terminal write leaves undone: no secret block is
    allocated, and the secret fields of the result keep their values. *)
Lemma p9skwrite_CNeedAuth_no_secret ki fss a n w s rc fss' w' :
  phase fss = CNeedAuth →
  0 ≤ n < 2 ^ 32 → Z.of_nat AUTHENTLEN ≤ n →
  live w fss s →
  p9skwrite ki fss a n w = inr ((rc, fss'), w') →
  rc = RpcOk ∧ phase fss' = Established ∧ haveai fss' = 1 ∧
  heap w' = heap w ∧
  ai_secret (ai fss') = ai_secret (ai fss) ∧
  ai_nsecret (ai fss') = ai_nsecret (ai fss).
Proof.
  intros Hp Hn Hle Hlive.
  rewrite (p9skwrite_CNeedAuth ki fss a n w s Hp Hn Hle Hlive).
  by intros [= <- <- <-].
Qed.

End Terminal.

Section KeyQuery.
Context {E : Env}.

(** No branch of [p9skwrite] lets the session's attributes reach its
    result: the list built from them at [CNeedTreq] is dropped. *)
Lemma p9skwrite_attr ki fss a n w x :
  p9skwrite ki (set_attr x fss) a n w =
  on_fss (set_attr x) (p9skwrite ki fss a n w).
Proof.
  unfold p9skwrite. fss_cbn.
  repeat match goal with
         | |- context [phase fss =? ?b] => destruct (phase fss =? b)
         end; try done; cbv zeta;
  match goal with |- context [uint_lt ?a ?b] => destruct (uint_lt a b) end;
  try done; unM; destruct (load_State (ps fss) w) as [|[s w1]]; try done.
  - by destruct (store_State _ _ _) as [|[??]].
  - destruct (findkey _ _ _) as [ret k].
    destruct (decide (ret = RpcOk)).
    + destruct (gettickets _ _ _ _) as [r tb]. destruct (r <? 0).
      * by destruct (store_State _ _ _) as [|[??]].
      * by destruct (store_State _ _ _) as [|[??]].
    + by destruct (store_State _ _ _) as [|[??]].
  - destruct (deref_Key _ _) as [|[kv w2]]; [done|].
    by destruct (store_State _ _ _) as [|[??]].
Qed.

(** C3. At [CNeedTreq] the key store is asked with the format
    ["role=client dom=%q %s"], the domain of the decoded request and the
    key prompt, and a failure of the key store or of the ticket service
    fails the write with the session record, phase included, as it was;
    but the query is not built from the session's attributes: whatever
    they are, the write gives the same result. *)
Theorem client_key_query_ignores_attributes {OK : EnvOk E} ki fss a n w s :
  phase fss = CNeedTreq →
  0 ≤ n < 2 ^ 32 → Z.of_nat TICKREQLEN ≤ n →
  live w fss s →
  let req := convM2TR (take TICKREQLEN a) in
  (∀ x, p9skwrite ki (set_attr x fss) a n w =
        on_fss (set_attr x) (p9skwrite ki fss a n w)) ∧
  (∀ ret k,
     findkey ki "role=client dom=%q %s" [tr_authdom req; keyprompt] = (ret, k) →
     ret ≠ RpcOk →
     ∃ w', p9skwrite ki fss a n w = inr ((RpcFailure, fss), w')) ∧
  (∀ k r tb,
     findkey ki "role=client dom=%q %s" [tr_authdom req; keyprompt] = (RpcOk, k) →
     gettickets req (if k is Some _ then k else key s) (g_trbuf w) (g_tbuf w)
       = (r, tb) →
     r < 0 →
     ∃ w', p9skwrite ki fss a n w = inr ((RpcFailure, fss), w')).
Proof.
  intros Hp Hn Hle (l & Hps & Hl) req. subst req.
  pose proof TICKREQLEN_int.
  split; [intros x; apply p9skwrite_attr|].
  split.
  - intros ret k Hf Hret.
    unfold p9skwrite. dispatch Hp. rewrite uint_lt_false by lia. unM.
    unfold load_State, store_State. rewrite Hps, Hl.
    state_cbn; destruct (vers s =? 2); state_cbn; rewrite Hf;
      (destruct (decide (ret = RpcOk)); [done|]);
      rewrite Hl; by eexists.
  - intros k r tb Hf Hg Hr.
    apply Z.ltb_lt in Hr.
    unfold p9skwrite. dispatch Hp. rewrite uint_lt_false by lia. unM.
    unfold load_State, store_State. rewrite Hps, Hl.
    state_cbn; destruct (vers s =? 2); state_cbn; rewrite Hf;
      (destruct (decide (RpcOk = RpcOk)); [|done]);
      destruct k; state_cbn; rewrite Hg, Hr; state_cbn;
      rewrite Hl; by eexists.
Qed.

End KeyQuery.

Section Teardown.
Context {E : Env}.

(** Reads and writes release nothing. *)
Lemma step_closed o fss w r w' :
  step o fss w = inr (r, w') → closed w' = closed w.
Proof.
  destruct o as [n|ki a n]; cbn [step]; unfold p9skread, p9skwrite; unM;
    unfold load_State, store_State, store_bytes, emalloc, deref_Key; unM;
    intros H; repeat (case_match; simplify_eq/=); done.
Qed.

(** [p9skclose] on a live session, step by step. *)
Lemma p9skclose_live fss w l s :
  ps fss = Some l → heap w !! l = Some (BState s) →
  (∀ l2, secret s = Some l2 → l2 ≠ l ∧ is_Some (heap w !! l2)) →
  p9skclose fss w =
  inr ((),
       set_heap
         (delete l (if secret s is Some l2 then delete l2 (heap w) else heap w))
         (set_closed (closed w ++ (if key s is Some k then [k] else [])) w)).
Proof.
  intros Hps Hl Hsec. unfold p9skclose. unM.
  unfold load_State. rewrite Hps, Hl.
  destruct (secret s) as [l2|].
  - destruct (Hsec l2 eq_refl) as (Hne & b2 & Hl2).
    unfold free at 1. rewrite Hl2.
    destruct (key s) as [k|]; unfold closekey, free; unM; state_cbn;
      rewrite lookup_delete_ne, Hl by done; state_cbn;
      rewrite ?app_nil_r; by destruct w.
  - destruct (key s) as [k|]; unfold closekey, free; unM; state_cbn;
      rewrite Hl; rewrite ?app_nil_r; by destruct w.
Qed.

(** C8, as the code has it. Before teardown nothing is released; one
    [p9skclose] on a live session releases its key record once, if it
    holds one, and frees the secret, if there is one, and the session;
    it leaves [fss->ps] pointing at the freed session, so a second
    [p9skclose] is not a no-op: it dereferences the freed block. *)
Theorem close_releases_once_then_dangles fss w l s :
  ps fss = Some l → heap w !! l = Some (BState s) →
  (∀ l2, secret s = Some l2 → l2 ≠ l ∧ is_Some (heap w !! l2)) →
  (∀ o r w1, step o fss w = inr (r, w1) → closed w1 = closed w) ∧
  ∃ w',
    p9skclose fss w = inr ((), w') ∧
    closed w' = closed w ++ (if key s is Some k then [k] else []) ∧
    heap w' = delete l (if secret s is Some l2 then delete l2 (heap w) else heap w) ∧
    p9skclose fss w' = inl Dangling.
Proof.
  intros Hps Hl Hsec. split; [intros o r w1; apply step_closed|].
  eexists. split; [by apply p9skclose_live|].
  split; [done|]. split; [done|].
  unfold p9skclose. unM. unfold load_State. rewrite Hps. state_cbn.
  by rewrite lookup_delete_eq.
Qed.

End Teardown.

Section Shape.
Context {E : Env} {OK : EnvOk E}.

Lemma wf_zero_State : wf_State zero_State.
Proof. split_and!; cbn; by rewrite length_replicate. Qed.

(** A successful [p9skinit] leaves a live session whose arrays have
    their sizes. *)
Lemma p9skinit_wf p fss w fss1 w1 :
  p9skinit p fss w = inr ((RpcOk, fss1), w1) →
  ∃ s1, live w1 fss1 s1 ∧ wf_State s1.
Proof.
  unfold p9skinit. unM.
  unfold emalloc, memrandom_bytes, store_State, deref_Key, safecpy, free. unM.
  intros H. repeat (case_match; simplify_eq/=);
    (eexists; split;
     [eexists; split; [done|]; cbn [heap set_heap]; apply lookup_insert_eq|]);
    split_and!; cbn;
    rewrite ?length_memmove; rewrite ?length_replicate; try done; try lia;
    rewrite ?length_memmove; rewrite ?length_replicate; try done; try lia.
Qed.

(** Reads and writes keep the session live and its arrays at their
    sizes. *)
Lemma step_wf o fss w rc fss' w' s :
  live w fss s → wf_State s →
  step o fss w = inr ((rc, fss'), w') →
  ∃ s', live w' fss' s' ∧ wf_State s'.
Proof.
  intros (l & Hps & Hl) (Hc & Ht & Hr).
  pose proof (fresh_heap_ne _ _ _ Hl) as Hne.
  pose proof convA2M_length as HA. pose proof convM2TR_chal_length as HT.
  destruct o as [n|ki a n]; cbn [step]; unfold p9skread, p9skwrite; unM;
    unfold load_State, store_State, store_bytes, emalloc, deref_Key; unM;
    rewrite Hps; intros H;
    repeat (case_match; simplify_eq/=);
    (eexists; split;
     [eexists; split; [done|]; cbn [heap set_heap];
      first [apply lookup_insert_eq | eassumption]|]);
    split_and!; state_cbn; try done;
    rewrite ?length_poke; rewrite ?length_memmove; rewrite ?HA, ?HT; try done; try lia.
Qed.

End Shape.

Section Counterexamples.
Import Mock.
#[local] Existing Instance Mock.env.
#[local] Existing Instance MockFacts.env_ok.

(** C1 on the mock handshake of the full variant. Both sides reach the
    terminal phase with a result marked valid; the server's result holds
    the 8-byte secret expanded from the session key of its ticket, and the
    client's holds none: its terminal write allocates nothing and sets
    neither the secret pointer nor its length. *)
Theorem client_terminal_write_has_no_secret :
  ∃ fs fc w,
    handshake world0 = inr ((fs, fc), w) ∧
    phase fs = Established ∧ phase fc = Established ∧
    haveai fs = 1 ∧ haveai fc = 1 ∧
    (∃ l, ai_secret (ai fs) = Some l ∧ ai_nsecret (ai fs) = 8 ∧
          heap w !! l = Some (BBytes (des56to64 session_key))) ∧
    ai_secret (ai fc) = None ∧ ai_nsecret (ai fc) = 0 ∧
    (∃ sc, live w fc sc ∧ secret sc = None).
Proof.
  eexists _, _, _. split; [vm_compute; reflexivity|].
  split_and!; try reflexivity.
  - exists 2%nat. split_and!; vm_compute; reflexivity.
  - eexists. split; [exists 1%nat; split; [reflexivity|vm_compute; reflexivity]|].
    reflexivity.
Qed.

(** C2 fails on the code: the client at [CNeedAuth] is handed thirteen
    zero bytes, which decode to an authenticator whose purpose tag is not
    [AuthAs] and whose challenge is not the client's; the write returns
    RpcOk and the session is established. *)
Lemma unchecked_authenticator_counterexample :
  ¬ (∀ ki fss a n w s rc fss' w',
       live w fss s → phase fss = CNeedAuth →
       p9skwrite ki fss a n w = inr ((rc, fss'), w') →
       let peer := convM2A (take AUTHENTLEN a) (t_key (t s)) in
       a_num peer ≠ AuthAs ∨ a_chal peer ≠ cchal s →
       rc ≠ RpcOk ∧ phase fss' = phase fss).
Proof.
  intros H.
  pose (fc := stage_auth.1.1.2). pose (w := stage_auth.2).
  destruct (H ki0 fc (replicate 13 0) 13 w (session_at w 1) RpcOk
              (set_phase Established
                 (set_haveai 1 (set_ai (set_ai_uids "" "" (ai fc)) fc)))
              (set_g_auth (mkAuthenticator 0 (replicate 8 0) 0) w))
    as [Hrc _].
  - exists 1%nat. split; vm_compute; reflexivity.
  - vm_compute; reflexivity.
  - vm_compute; reflexivity.
  - left. vm_compute. discriminate.
  - by apply Hrc.
Qed.

(** C8 fails on the code: on the mock server session that has completed
    the handshake, the first [p9skclose] returns and the second one does
    not: it is no call that leaves the key record released once. *)
Lemma close_twice_counterexample :
  ¬ (∀ fss w l s, ps fss = Some l → heap w !! l = Some (BState s) →
       ∃ w1 w2, p9skclose fss w = inr ((), w1) ∧
                p9skclose fss w1 = inr ((), w2) ∧
                closed w2 = closed w ++ (if key s is Some k then [k] else [])).
Proof.
  intros H.
  pose (fs := stage_auth.1.1.1). pose (w := stage_auth.2).
  destruct (H fs w 0%nat (session_at w 0))
    as (w1 & w2 & H1 & H2 & _).
  - vm_compute; reflexivity.
  - vm_compute; reflexivity.
  - vm_compute in H1. injection H1 as <-. vm_compute in H2. discriminate H2.
Qed.

End Counterexamples.

Section Witnesses.
Import Mock.
#[local] Existing Instance Mock.env.
#[local] Existing Instance MockFacts.env_ok.

Lemma phase_error_leaves_session_witness :
  p9skread (fss0 "client") 8 world0
    = inr ((RpcPhase "read", fss0 "client", 8, []), world0) ∧
  p9skwrite ki0 (fss0 "client") [1; 2] 2 world0
    = inr ((RpcPhase "write", fss0 "client"), world0).
Proof.
  destruct (phase_error_leaves_session ki0 (fss0 "client") [1; 2] 8 world0) as [Hr _].
  destruct (phase_error_leaves_session ki0 (fss0 "client") [1; 2] 2 world0) as [_ Hw].
  split; [apply Hr|apply Hw]; by_decide.
Defined.

Lemma toosmall_reports_required_size_witness :
  let fs := stage_init.1.1 in
  let fc := stage_init.1.2 in
  let w := stage_init.2 in
  p9skread fc 7 w = inr ((RpcToosmall 8, fc, 7, []), w) ∧
  p9skwrite ki0 fs [1; 2; 3; 4; 5; 6; 7] 7 w = inr ((RpcToosmall 8, fs), w) ∧
  ∃ fss' out w', p9skread fc 8 w = inr ((RpcOk, fss', 8, out), w') ∧
                 length out = 8%nat.
Proof.
  intros fs fc w.
  destruct (toosmall_reports_required_size ki0 fc [] 7 w 8) as (Hr & _ & _);
    [lia|].
  destruct (toosmall_reports_required_size ki0 fs [1; 2; 3; 4; 5; 6; 7] 7 w 8)
    as (_ & Hw & _); [lia|].
  destruct (toosmall_reports_required_size ki0 fc [] 8 w 8) as (_ & _ & Hok);
    [lia|].
  split; [apply Hr; by_compute|]. split; [apply Hw; by_compute|].
  apply (Hok eq_refl ltac:(lia) (session_at w 1)).
  - exists 1%nat. split; by_compute.
  - split_and!; by_compute.
Defined.

Lemma phases_follow_sequence_witness :
  let fc := stage_init.1.2 in
  let ops := [OpRead 7; OpRead 8; OpRead 8; OpWrite ki0 [] 0;
              OpWrite ki0 stage_treq.1.2 141; OpRead 85] in
  NoDup (phase_seq true p9sk1) ∧
  squash (phases ops (outcome (p9skinit p9sk1 (fss0 "client")) (RpcOk, fss_none)).1.2
            (outcome (p9skinit p9sk1 (fss0 "client")) (RpcOk, fss_none)).2)
    `prefix_of` phase_seq true p9sk1.
Proof.
  intros fc ops.
  assert (p9skinit p9sk1 (fss0 "client") world0 =
          inr ((RpcOk,
                (outcome (p9skinit p9sk1 (fss0 "client")) (RpcOk, fss_none)).1.2),
               (outcome (p9skinit p9sk1 (fss0 "client")) (RpcOk, fss_none)).2))
    as Hi by by_compute.
  exact (phases_follow_sequence p9sk1 (fss0 "client") world0 _ _ ops Hi).
Defined.

Lemma server_authenticator_is_peer_retagged_witness :
  let fs := stage_ticket.1.1.1 in
  let tick := stage_ticket.1.2 in
  let w := stage_ticket.2 in
  let tk := convM2T (take TICKETLEN tick) (k_priv server_key) in
  let peer := convM2A (take AUTHENTLEN (drop TICKETLEN tick)) (t_key tk) in
  let staged := convA2M (mkAuthenticator AuthAs (a_chal peer) (a_id peer)) (t_key tk) in
  ∃ fss1 w1,
    p9skwrite ki0 fs tick 85 w = inr ((RpcOk, fss1), w1) ∧
    phase fss1 = SHaveAuth ∧
    (∃ s1, live w1 fss1 s1 ∧
           take AUTHENTLEN (drop TICKETLEN (tbuf s1)) = staged ∧
           take TICKETLEN (tbuf s1) = take TICKETLEN (tbuf (session_at w 0))) ∧
    ∀ n2, 0 ≤ n2 < 2 ^ 32 → Z.of_nat AUTHENTLEN ≤ n2 →
      ∃ fss2 w2,
        p9skread fss1 n2 w1 = inr ((RpcOk, fss2, Z.of_nat AUTHENTLEN, staged), w2).
Proof.
  intros fs tick w.
  apply (server_authenticator_is_peer_retagged ki0 fs tick 85 w
           (session_at w 0) server_key).
  - by_compute.
  - lia.
  - by_compute.
  - exists 0%nat. split; by_compute.
  - split_and!; by_compute.
  - by_compute.
Defined.

Lemma flawed_variant_shares_challenge_witness :
  let fs := stage_flawed.1.1.1 in
  let fc := stage_flawed.1.1.2 in
  let treq := stage_flawed.1.2 in
  let w := stage_flawed.2 in
  (∀ rc fss1 w1, p9skinit p9sk2 (fss0 "client") world0 = inr ((rc, fss1), w1) →
     phase fss1 = CNeedTreq ∧ entropy w1 = entropy world0 ∧
     ∃ s1, live w1 fss1 s1 ∧ vers s1 = 2 ∧ cchal s1 = replicate CHALLEN 0) ∧
  (∃ rc fss1 w1 s1,
     p9skwrite ki0 fc treq 141 w = inr ((rc, fss1), w1) ∧ live w1 fss1 s1 ∧
     cchal s1 = tr_chal (convM2TR (take TICKREQLEN treq)) ∧
     cchal s1 = tr_chal (tr (session_at w 0))) ∧
  (∀ fss1 w1, p9skinit p9sk2 (fss0 "server") world0 = inr ((RpcOk, fss1), w1) →
     phase fss1 = SHaveTreq ∧
     ∃ s1, live w1 fss1 s1 ∧ cchal s1 = tr_chal (tr s1)).
Proof.
  intros fs fc treq w.
  destruct (flawed_variant_shares_challenge ki0 (fss0 "client") [] 0 world0
              zero_State) as (H1 & _ & _).
  destruct (flawed_variant_shares_challenge ki0 fc treq 141 w (session_at w 1))
    as (_ & H2 & _).
  destruct (flawed_variant_shares_challenge ki0 (fss0 "server") [] 0 world0
              zero_State) as (_ & _ & H3).
  split; [apply H1; by_compute|]. split; [|apply H3; by_compute].
  destruct H2 as (rc & fss1 & w1 & s1 & Hw & Hl & Hc & Hsrv).
  - by_compute.
  - lia.
  - by_compute.
  - exists 1%nat. split; by_compute.
  - split_and!; by_compute.
  - by_compute.
  - exists rc, fss1, w1, s1. split_and!; [exact Hw|exact Hl|exact Hc|].
    apply Hsrv; by_compute.
Defined.

Lemma speakfor_never_used_witness :
  let fc := stage_treq.1.1.2 in
  let treq := stage_treq.1.2 in
  let w := stage_treq.2 in
  p9skwrite ki0 fc treq 141 (poke_speakfor 1 7 w) =
    on_world (poke_speakfor 1 7) (p9skwrite ki0 fc treq 141 w) ∧
  p9skclose fc (poke_speakfor 1 7 w) =
    on_world (poke_speakfor 1 7) (p9skclose fc w) ∧
  (∀ o r w', step o fc w = inr (r, w') →
     ∃ s', heap w' !! 1%nat = Some (BState s') ∧
           speakfor s' = speakfor (session_at w 1)).
Proof.
  intros fc treq w.
  destruct (speakfor_never_used p9sk1 ki0 fc treq 141 w 1 (session_at w 1) 7)
    as (_ & _ & Hw & Hc & _ & Hk & _); [by_compute|by_compute|].
  split_and!; [exact Hw|exact Hc|exact Hk].
Defined.

Lemma peer_authenticator_accepted_unchecked_witness :
  let fs := stage_ticket.1.1.1 in
  let fc := stage_ticket.1.1.2 in
  let w := stage_ticket.2 in
  (∃ fss' w', p9skwrite ki0 fs (replicate 85 0) 85 w = inr ((RpcOk, fss'), w') ∧
              phase fss' = SHaveAuth) ∧
  (∃ fss' w', p9skwrite ki0 fc (replicate 13 0) 13 w = inr ((RpcOk, fss'), w') ∧
              phase fss' = Established ∧ haveai fss' = 1 ∧ heap w' = heap w).
Proof.
  intros fs fc w.
  destruct (peer_authenticator_accepted_unchecked ki0 fs (replicate 85 0) 85 w
              (session_at w 0)) as [Hs _];
    [lia|exists 0%nat; split; by_compute|].
  destruct (peer_authenticator_accepted_unchecked ki0 fc (replicate 13 0) 13 w
              (session_at w 1)) as [_ Hc];
    [lia|exists 1%nat; split; by_compute|].
  split.
  - apply Hs; [by_compute|by_compute|]. eexists. by_compute.
  - apply Hc; by_compute.
Defined.

Lemma client_key_query_ignores_attributes_witness :
  let fc := stage_treq.1.1.2 in
  let treq := stage_treq.1.2 in
  let w := stage_treq.2 in
  p9skwrite ki0 (set_attr [("role", "client"); ("user", "carol")] fc) treq 141 w =
    on_fss (set_attr [("role", "client"); ("user", "carol")])
      (p9skwrite ki0 fc treq 141 w).
Proof.
  intros fc treq w.
  destruct (client_key_query_ignores_attributes ki0 fc treq 141 w (session_at w 1))
    as (Ha & _ & _).
  - by_compute.
  - lia.
  - by_compute.
  - exists 1%nat. split; by_compute.
  - apply Ha.
Defined.

Lemma close_releases_once_then_dangles_witness :
  let fs := stage_auth.1.1.1 in
  let w := stage_auth.2 in
  let s := session_at w 0 in
  ∃ w',
    p9skclose fs w = inr ((), w') ∧
    closed w' = closed w ++ (if key s is Some k then [k] else []) ∧
    heap w' = delete 0%nat (if secret s is Some l2 then delete l2 (heap w) else heap w) ∧
    p9skclose fs w' = inl Dangling.
Proof.
  intros fs w s.
  apply (close_releases_once_then_dangles fs w 0 s).
  - by_compute.
  - by_compute.
  - intros l2 Hl2. vm_compute in Hl2. injection Hl2 as <-.
    split; [lia|]. eexists. by_compute.
Defined.

End Witnesses.

(** * Further properties of the engine *)

Section Safety.
Context {E : Env} {OK : EnvOk E}.

Lemma server_phase_cases p :
  p ∈ server_phases ↔ p = SNeedChal ∨ p = SHaveTreq ∨ p = SNeedTicket ∨ p = SHaveAuth.
Proof.
  unfold server_phases. rewrite !elem_of_cons, elem_of_nil. tauto.
Qed.

Lemma Established_not_server : Established ∉ server_phases.
Proof.
  rewrite server_phase_cases. pose proof Established_out.
  intros [H1|[H1|[H1|H1]]]; rewrite H1 in *; phase_lia.
Qed.

(** A server session holds its key: reads and writes keep it so. *)
Lemma step_keeps_key o fss w rc fss' w' s :
  live w fss s →
  (phase fss ∈ server_phases → is_Some (key s)) →
  step o fss w = inr ((rc, fss'), w') →
  ∀ s', live w' fss' s' → phase fss' ∈ server_phases → is_Some (key s').
Proof.
  intros (l & Hps & Hl) Hkey.
  pose proof (fresh_heap_ne _ _ _ Hl) as Hne.
  pose proof Established_not_server as HE.
  destruct o as [n|ki a n]; cbn [step]; unfold p9skread, p9skwrite; unM;
    unfold load_State, store_State, store_bytes, emalloc, deref_Key; unM;
    rewrite Hps; intros H;
    repeat (case_match; simplify_eq/=);
    intros s' (l' & Hps' & Hl') Hin; cbn in Hps'; simplify_eq;
    try (cbn [heap set_heap] in Hl';
         rewrite ?lookup_insert_eq in Hl'); simplify_eq/=;
    repeat match goal with
           | H : (_ =? _) = true |- _ => apply Z.eqb_eq in H
           end;
    try (by apply Hkey);
    try (exfalso; by apply HE);
    try (apply server_phase_cases in Hin; exfalso; phase_lia);
    try (apply Hkey; apply server_phase_cases; phase_lia).
Qed.

(** With the session live and, in a server phase, its key held, a read
    or a write returns. *)
Lemma step_returns o fss w s :
  live w fss s →
  (phase fss ∈ server_phases → is_Some (key s)) →
  ∃ rc fss' w', step o fss w = inr ((rc, fss'), w').
Proof.
  intros (l & Hps & Hl) Hkey.
  pose proof (fresh_heap_ne _ _ _ Hl) as Hne.
  destruct (step o fss w) as [e|[[rc fss'] w']] eqn:H; [exfalso|by eauto].
  revert H.
  destruct o as [n|ki a n]; cbn [step]; unfold p9skread, p9skwrite; unM;
    unfold load_State, store_State, store_bytes, emalloc, deref_Key; unM;
    rewrite Hps; intros H;
    repeat (case_match; simplify_eq/=);
    rewrite ?lookup_insert_eq, ?lookup_insert_ne in * by done;
    simplify_eq/=;
    repeat match goal with
           | H : (_ =? _) = true |- _ => apply Z.eqb_eq in H
           end.
  destruct Hkey as [k Hk]; [apply server_phase_cases; auto|congruence].
Qed.

Lemma p9skinit_sound p fss w fss1 w1 :
  p9skinit p fss w = inr ((RpcOk, fss1), w1) → sound w1 fss1.
Proof.
  intros Hi. destruct (p9skinit_wf _ _ _ _ _ Hi) as (s1 & Hl & Hwf).
  exists s1. split; [done|]. split; [done|].
  revert Hi Hl. unfold p9skinit. unM.
  unfold emalloc, memrandom_bytes, store_State, deref_Key, safecpy, free. unM.
  intros H. repeat (case_match; simplify_eq/=);
    intros (l' & Hps' & Hl') Hin; cbn in Hps'; simplify_eq;
    cbn [heap set_heap] in Hl'; rewrite lookup_insert_eq in Hl'; simplify_eq/=;
    try (apply server_phase_cases in Hin; exfalso; phase_lia);
    by eexists.
Qed.

Lemma step_sound o fss w :
  sound w fss →
  ∃ rc fss' w', step o fss w = inr ((rc, fss'), w') ∧ sound w' fss'.
Proof.
  intros (s & Hl & Hwf & Hk).
  destruct (step_returns o fss w s Hl Hk) as (rc & fss' & w' & Hs).
  exists rc, fss', w'. split; [done|].
  destruct (step_wf _ _ _ _ _ _ _ Hl Hwf Hs) as (s' & Hl' & Hwf').
  exists s'. split; [done|]. split; [done|].
  exact (step_keeps_key o fss w rc fss' w' s Hl Hk Hs s' Hl').
Qed.

(** After a successful [p9skinit] no sequence of reads and writes
    faults: every call returns a code, in any order and with any buffers,
    and the session stays live with its arrays at their sizes. *)
Theorem session_never_faults p fss w fss1 w1 ops :
  p9skinit p fss w = inr ((RpcOk, fss1), w1) →
  ∃ rcs fss2 w2 s2,
    run ops fss1 w1 = inr ((rcs, fss2), w2) ∧
    length rcs = length ops ∧
    live w2 fss2 s2 ∧ wf_State s2.
Proof.
  intros Hi. apply p9skinit_sound in Hi. revert fss1 w1 Hi.
  induction ops as [|o ops IH]; intros fss1 w1 Hs.
  - destruct Hs as (s & Hl & Hwf & _). by exists [], fss1, w1, s.
  - destruct (step_sound o _ _ Hs) as (rc & fss' & w' & Hstep & Hs').
    destruct (IH _ _ Hs') as (rcs & fss2 & w2 & s2 & Hr & Hlen & Hl2 & Hwf2).
    exists (rc :: rcs), fss2, w2, s2. split_and!; try done.
    + cbn [run]. unM. by rewrite Hstep, Hr.
    + cbn. by rewrite Hlen.
Qed.

End Safety.

Section InitFailure.
Context {E : Env}.

(** An initialisation that does not return RpcOk leaves nothing behind:
    the block it allocated is freed again, so the heap, the release log
    and the random source are as before, and the session pointer, the
    phase and the result of the record are untouched. *)
Theorem init_failure_leaves_store p fss w rc fss1 w1 :
  p9skinit p fss w = inr ((rc, fss1), w1) →
  rc ≠ RpcOk →
  heap w1 = heap w ∧ closed w1 = closed w ∧ entropy w1 = entropy w ∧
  ps fss1 = ps fss ∧ phase fss1 = phase fss ∧
  ai fss1 = ai fss ∧ haveai fss1 = haveai fss.
Proof.
  assert (fresh (dom (heap w)) ∉ dom (heap w)) as Hf by apply is_fresh.
  unfold p9skinit. unM.
  unfold emalloc, memrandom_bytes, store_State, deref_Key, safecpy, free. unM.
  intros H Hrc. repeat (case_match; simplify_eq/=); try done.
  all: split_and!; try done; by apply delete_insert_dom.
Qed.

End InitFailure.

Section Frame.
Context {E : Env}.

(** What reads and writes never touch: the random source, [trbuf], the
    attributes and the session pointer; and every heap block other than
    the session's own keeps its contents. *)
Theorem step_frame o fss w rc fss' w' :
  step o fss w = inr ((rc, fss'), w') →
  entropy w' = entropy w ∧ g_trbuf w' = g_trbuf w ∧
  attr fss' = attr fss ∧ ps fss' = ps fss ∧
  ∀ l b, ps fss ≠ Some l → heap w !! l = Some b → heap w' !! l = Some b.
Proof.
  destruct o as [n|ki a n]; cbn [step]; unfold p9skread, p9skwrite; unM;
    unfold load_State, store_State, store_bytes, emalloc, deref_Key; unM;
    intros H; repeat (case_match; simplify_eq/=);
    (split_and!; try done; intros l' b' Hne Hl';
     pose proof (fresh_heap_ne _ _ _ Hl');
     cbn [heap set_heap]; by rewrite ?lookup_insert_ne by congruence).
Qed.

End Frame.

Section Secret.
Context {E : Env}.

(** The secret exists only after the server's terminal read: any other
    read or write, and a terminal read that fails, allocates no block and
    leaves the secret pointer and length of the result, and the secret
    pointer of the session, as they were. *)
Theorem secret_only_from_terminal_read o fss w rc fss' w' s :
  live w fss s →
  step o fss w = inr ((rc, fss'), w') →
  phase fss ≠ SHaveAuth ∨ rc ≠ RpcOk →
  dom (heap w') = dom (heap w) ∧
  ai_secret (ai fss') = ai_secret (ai fss) ∧
  ai_nsecret (ai fss') = ai_nsecret (ai fss) ∧
  ∃ s', live w' fss' s' ∧ secret s' = secret s.
Proof.
  intros (l & Hps & Hl).
  destruct o as [n|ki a n]; cbn [step]; unfold p9skread, p9skwrite; unM;
    unfold load_State, store_State, store_bytes, emalloc, deref_Key; unM;
    rewrite Hps; intros H Hor;
    repeat (case_match; simplify_eq/=);
    repeat match goal with
           | H : (_ =? _) = true |- _ => apply Z.eqb_eq in H
           end;
    try (destruct Hor; done);
    (split;
     [cbn [heap set_heap]; first [done | apply dom_insert_lookup_L; by eauto]|];
     split; [done|]; split; [done|];
     eexists; split;
     [exists l; split; [done|]; cbn [heap set_heap];
      first [apply lookup_insert_eq | eassumption]
     |done]).
Qed.

End Secret.

Section Consumed.
Context {E : Env} {OK : EnvOk E}.

(** A write looks at the first bytes of its buffer only, as many as its
    phase requires, and a read at no more of the capacity than that it
    suffices: a longer buffer or a larger count changes nothing. *)
Theorem only_required_bytes_matter ki fss a n w m :
  0 ≤ n < 2 ^ 32 → Z.of_nat m ≤ n →
  (write_size (phase fss) = Some m →
   p9skwrite ki fss a n w = p9skwrite ki fss (take m a) (Z.of_nat m) w) ∧
  (read_size (phase fss) = Some m →
   p9skread fss n w = p9skread fss (Z.of_nat m) w).
Proof.
  intros Hn Hle. split; intros Hm.
  - pose proof (write_size_int _ _ Hm) as Hint.
    revert Hm. unfold write_size, p9skwrite.
    repeat match goal with
           | |- context [?a =? ?b] =>
               destruct (Z.eqb_spec a b);
               [intros [= <-]; cbv zeta;
                rewrite !uint_lt_false by lia|]
           end; [..|done].
    + unfold memmove. by rewrite take_idemp.
    + by rewrite take_idemp.
    + rewrite take_take, Nat.min_l by lia.
      rewrite (take_drop_commute (take (TICKETLEN + AUTHENTLEN) a)), take_idemp.
      by rewrite <- (take_drop_commute a).
    + by rewrite take_idemp.
  - pose proof (read_size_int _ _ Hm) as Hint.
    revert Hm. unfold read_size, p9skread.
    repeat match goal with
           | |- context [?a =? ?b] =>
               destruct (Z.eqb_spec a b);
               [intros [= <-]; cbv zeta;
                by rewrite !uint_lt_false by lia|]
           end.
    done.
Qed.

End Consumed.

(** The two halves of the client's outgoing buffer. *)
Lemma staged_pair (buf src enc : bytes) (T A : nat) :
  length buf = (T + A)%nat → (T ≤ length src)%nat → length enc = A →
  poke (memmove buf 0 src T) T enc = take T src ++ enc.
Proof.
  intros Hb Hs He. unfold memmove.
  assert (length (take T src) = T) as Ht by (rewrite length_take; lia).
  assert (poke buf 0 (take T src) = take T src ++ drop T buf) as ->.
  { unfold poke. by rewrite Ht. }
  unfold poke.
  rewrite take_app_length' by done.
  rewrite drop_ge by (rewrite length_app, length_drop; lia).
  by rewrite app_nil_r.
Qed.

Section Messages.
Context {E : Env} {OK : EnvOk E}.

Lemma p9skread_CHaveChal fss n w s :
  phase fss = CHaveChal → 0 ≤ n < 2 ^ 32 → Z.of_nat CHALLEN ≤ n →
  live w fss s →
  p9skread fss n w =
  inr ((RpcOk, set_phase CNeedTreq fss, Z.of_nat CHALLEN, take CHALLEN (cchal s)), w).
Proof.
  intros Hp Hn Hle Hlive. pose proof CHALLEN_int.
  unfold p9skread. dispatch Hp. rewrite uint_lt_false by lia. unM.
  by rewrite (load_State_live _ _ _ Hlive).
Qed.

Lemma p9skwrite_SNeedChal ki fss a n w s l :
  phase fss = SNeedChal → 0 ≤ n < 2 ^ 32 → Z.of_nat CHALLEN ≤ n →
  ps fss = Some l → heap w !! l = Some (BState s) →
  p9skwrite ki fss a n w =
  inr ((RpcOk, set_phase SHaveTreq fss),
       set_heap (<[l := BState (set_cchal (memmove (cchal s) 0 a CHALLEN) s)]> (heap w)) w).
Proof.
  intros Hp Hn Hle Hps Hl. pose proof CHALLEN_int.
  unfold p9skwrite. dispatch Hp. rewrite uint_lt_false by lia. unM.
  unfold load_State, store_State. rewrite Hps, Hl. state_cbn.
  by rewrite Hl.
Qed.

Lemma p9skread_SHaveTreq fss n w s :
  phase fss = SHaveTreq → 0 ≤ n < 2 ^ 32 → Z.of_nat TICKREQLEN ≤ n →
  live w fss s →
  p9skread fss n w =
  inr ((RpcOk, set_phase SNeedTicket fss, Z.of_nat TICKREQLEN, convTR2M (tr s)), w).
Proof.
  intros Hp Hn Hle Hlive. pose proof TICKREQLEN_int.
  unfold p9skread. dispatch Hp. rewrite uint_lt_false by lia. unM.
  by rewrite (load_State_live _ _ _ Hlive).
Qed.

Lemma p9skread_CHaveTicket fss n w s :
  phase fss = CHaveTicket → 0 ≤ n < 2 ^ 32 →
  Z.of_nat (TICKETLEN + AUTHENTLEN) ≤ n →
  live w fss s →
  p9skread fss n w =
  inr ((RpcOk, set_phase CNeedAuth fss, Z.of_nat (TICKETLEN + AUTHENTLEN),
        take (TICKETLEN + AUTHENTLEN) (tbuf s)), w).
Proof.
  intros Hp Hn Hle Hlive. pose proof TICKETLEN_int.
  unfold p9skread. dispatch Hp. rewrite uint_lt_false by lia. unM.
  by rewrite (load_State_live _ _ _ Hlive).
Qed.

(** The client's write at [CNeedTreq] on the path where the key store and
    the ticket service both answer, step by step. *)
Lemma p9skwrite_CNeedTreq_ok ki fss a n w s l k r tb :
  phase fss = CNeedTreq → 0 ≤ n < 2 ^ 32 → Z.of_nat TICKREQLEN ≤ n →
  ps fss = Some l → heap w !! l = Some (BState s) →
  let req := convM2TR (take TICKREQLEN a) in
  let s1 := if vers s =? 2
            then set_cchal (memmove (cchal s) 0 (tr_chal req) CHALLEN) (set_tr req s)
            else set_tr req s in
  let s2 := if k is Some _ then set_key k s1 else s1 in
  findkey ki "role=client dom=%q %s" [tr_authdom req; keyprompt] = (RpcOk, k) →
  gettickets req (key s2) (g_trbuf w) (g_tbuf w) = (r, tb) →
  0 ≤ r →
  let auth := set_a_num AuthAc (g_auth w) in
  let s3 := set_tbuf (poke (memmove (tbuf s) 0 (drop TICKETLEN tb) TICKETLEN)
                        TICKETLEN (convA2M auth (t_key (t s)))) s2 in
  p9skwrite ki fss a n w =
  inr ((RpcOk, set_phase CHaveTicket fss),
       set_heap (<[l := BState s3]> (heap w)) (set_g_auth auth (set_g_tbuf tb w))).
Proof.
  intros Hp Hn Hle Hps Hl req s1 s2 Hf Hg Hr auth s3.
  subst req s1 s2 auth s3. pose proof TICKREQLEN_int.
  apply Z.ltb_ge in Hr.
  destruct (vers s =? 2) eqn:Hv;
    unfold p9skwrite; dispatch Hp; rewrite uint_lt_false by lia; unM;
    unfold load_State, store_State; rewrite Hps, Hl; fields_cbn;
    rewrite Hv; state_cbn; rewrite Hf;
    (destruct (decide (RpcOk = RpcOk)); [|done]);
    destruct k; state_cbn; state_cbn_in Hg; rewrite Hg, Hr; state_cbn;
    by rewrite Hl.
Qed.

(** The client's challenge reaches the server: what the client's read at
    [CHaveChal] hands out is its [cchal], and the server's write at
    [SNeedChal] of those bytes makes them its own [cchal], the client's
    session being left as it is. *)
Theorem challenge_passes_to_server ki fc fs w sc ss lc ls n1 n2 :
  phase fc = CHaveChal → phase fs = SNeedChal →
  ps fc = Some lc → ps fs = Some ls → lc ≠ ls →
  heap w !! lc = Some (BState sc) → heap w !! ls = Some (BState ss) →
  wf_State sc → wf_State ss →
  0 ≤ n1 < 2 ^ 32 → Z.of_nat CHALLEN ≤ n1 →
  0 ≤ n2 < 2 ^ 32 → Z.of_nat CHALLEN ≤ n2 →
  ∃ fc' out fs' w' ss',
    p9skread fc n1 w = inr ((RpcOk, fc', Z.of_nat CHALLEN, out), w) ∧
    out = cchal sc ∧
    p9skwrite ki fs out n2 w = inr ((RpcOk, fs'), w') ∧
    phase fc' = CNeedTreq ∧ phase fs' = SHaveTreq ∧
    live w' fs' ss' ∧ cchal ss' = cchal sc ∧
    live w' fc' sc.
Proof.
  intros Hpc Hps Hlc Hls Hne Hsc Hss (Hc1 & _ & _) (Hc2 & _ & _) Hn1 Hle1 Hn2 Hle2.
  eexists _, _, _, _, _. split.
  { apply p9skread_CHaveChal; try done. by exists lc. }
  rewrite take_ge by lia. split; [done|]. split.
  { by eapply p9skwrite_SNeedChal. }
  split; [done|]. split; [done|]. split.
  { exists ls. split; [done|]. cbn [heap set_heap]. apply lookup_insert_eq. }
  split.
  { cbn [cchal set_cchal]. apply memmove_all; lia. }
  exists lc. split; [done|]. cbn [heap set_heap].
  by rewrite lookup_insert_ne by done.
Qed.

(** The server's ticket request reaches the client: the server's read at
    [SHaveTreq] hands out the encoding of its request, and the client's
    write of those bytes at [CNeedTreq] leaves their decoding as the
    session's request, whether the write then succeeds or fails at the
    key store or the ticket service. *)
Theorem request_passes_to_client ki fc fs w sc ss n1 n2 :
  phase fs = SHaveTreq → phase fc = CNeedTreq →
  live w fs ss → live w fc sc →
  0 ≤ n1 < 2 ^ 32 → Z.of_nat TICKREQLEN ≤ n1 →
  0 ≤ n2 < 2 ^ 32 → Z.of_nat TICKREQLEN ≤ n2 →
  ∃ fs' rc fc' w' sc',
    p9skread fs n1 w = inr ((RpcOk, fs', Z.of_nat TICKREQLEN, convTR2M (tr ss)), w) ∧
    p9skwrite ki fc (convTR2M (tr ss)) n2 w = inr ((rc, fc'), w') ∧
    (rc = RpcOk ∨ rc = RpcFailure) ∧
    live w' fc' sc' ∧
    tr sc' = convM2TR (convTR2M (tr ss)).
Proof.
  intros Hps Hpc Hls (lc & Hlc & Hsc) Hn1 Hle1 Hn2 Hle2.
  pose proof TICKREQLEN_int.
  eexists. rewrite (p9skread_SHaveTreq fs n1 w ss) by done.
  unfold p9skwrite. dispatch Hpc. rewrite uint_lt_false by lia. unM.
  unfold load_State, store_State. rewrite Hlc, Hsc. state_cbn.
  rewrite (take_ge (convTR2M (tr ss))) by (rewrite convTR2M_length; lia).
  destruct (vers sc =? 2); state_cbn;
    destruct (findkey _ _ _) as [ret [k|]];
    destruct (decide (ret = RpcOk)); state_cbn;
    try destruct (gettickets _ _ _ _) as [r tb];
    try destruct (r <? 0); state_cbn; rewrite ?Hsc;
    (eexists _, _, _, _; split; [done|]; split; [done|]; split; [by auto|];
     split; [exists lc; split; [done|]; cbn [heap set_heap]; apply lookup_insert_eq|done]).
Qed.

(** What the client sends for a ticket: after a successful write at
    [CNeedTreq] the read at [CHaveTicket] hands out the second ticket of
    the ticket service's buffer, followed by the encoding of the shared
    [auth] with its purpose set to [AuthAc] and its challenge and id as
    the last user of [auth] left them, under the ticket key the session
    held before the write: the client decodes no ticket of its own. *)
Theorem client_ticket_message ki fss a n w s k r tb n2 :
  phase fss = CNeedTreq → 0 ≤ n < 2 ^ 32 → Z.of_nat TICKREQLEN ≤ n →
  live w fss s → wf_State s →
  let req := convM2TR (take TICKREQLEN a) in
  findkey ki "role=client dom=%q %s" [tr_authdom req; keyprompt] = (RpcOk, k) →
  gettickets req (if k is Some _ then k else key s) (g_trbuf w) (g_tbuf w)
    = (r, tb) →
  0 ≤ r → (TICKETLEN + TICKETLEN ≤ length tb)%nat →
  0 ≤ n2 < 2 ^ 32 → Z.of_nat (TICKETLEN + AUTHENTLEN) ≤ n2 →
  ∃ fss1 w1 fss2 s1,
    p9skwrite ki fss a n w = inr ((RpcOk, fss1), w1) ∧
    live w1 fss1 s1 ∧ t s1 = t s ∧
    g_auth w1 = mkAuthenticator AuthAc (a_chal (g_auth w)) (a_id (g_auth w)) ∧
    p9skread fss1 n2 w1 =
      inr ((RpcOk, fss2, Z.of_nat (TICKETLEN + AUTHENTLEN),
            take TICKETLEN (drop TICKETLEN tb) ++
            convA2M (mkAuthenticator AuthAc (a_chal (g_auth w)) (a_id (g_auth w)))
              (t_key (t s))), w1).
Proof.
  intros Hp Hn Hle (l & Hps & Hl) (_ & Ht & _) req Hf Hg Hr Htb Hn2 Hle2.
  pose proof (p9skwrite_CNeedTreq_ok ki fss a n w s l k r tb Hp Hn Hle Hps Hl) as Hw.
  cbv zeta in Hw. fold req in Hw.
  assert (key (if k is Some _
               then set_key k
                      (if vers s =? 2
                       then set_cchal (memmove (cchal s) 0 (tr_chal req) CHALLEN)
                              (set_tr req s)
                       else set_tr req s)
               else (if vers s =? 2
                     then set_cchal (memmove (cchal s) 0 (tr_chal req) CHALLEN)
                            (set_tr req s)
                     else set_tr req s))
          = (if k is Some _ then k else key s)) as Hkey.
  { destruct k; [done|]. by destruct (vers s =? 2). }
  rewrite Hkey in Hw. specialize (Hw Hf Hg Hr).
  eexists _, _, _, _. split; [exact Hw|]. split.
  { exists l. split; [done|]. cbn [heap set_heap]. apply lookup_insert_eq. }
  split. { destruct k; destruct (vers s =? 2); reflexivity. }
  split; [done|].
  erewrite p9skread_CHaveTicket;
    [|done|done|done|exists l; split; [done|]; cbn [heap set_heap]; apply lookup_insert_eq].
  do 3 f_equal. cbn [tbuf set_tbuf].
  change (set_a_num AuthAc (g_auth w))
    with (mkAuthenticator AuthAc (a_chal (g_auth w)) (a_id (g_auth w))).
  rewrite (staged_pair _ _ _ TICKETLEN AUTHENTLEN);
    [|done|rewrite length_drop; lia|apply convA2M_length].
  apply take_ge. rewrite length_app, length_take, length_drop, convA2M_length. lia.
Qed.

(** The shared [auth] carries data from one session into another: once a
    server session has consumed a ticket message, the authenticator that a
    client session then builds holds the challenge and the id that the
    server decoded from its own peer. *)
Theorem auth_crosses_sessions ki fa a na fb b nb w sa sb ka la lb k r tb :
  phase fa = SNeedTicket → 0 ≤ na < 2 ^ 32 →
  Z.of_nat (TICKETLEN + AUTHENTLEN) ≤ na →
  ps fa = Some la → heap w !! la = Some (BState sa) → key sa = Some ka →
  phase fb = CNeedTreq → 0 ≤ nb < 2 ^ 32 → Z.of_nat TICKREQLEN ≤ nb →
  ps fb = Some lb → heap w !! lb = Some (BState sb) → wf_State sb → la ≠ lb →
  let peer := convM2A (take AUTHENTLEN (drop TICKETLEN a))
                (t_key (convM2T (take TICKETLEN a) (k_priv ka))) in
  let req := convM2TR (take TICKREQLEN b) in
  findkey ki "role=client dom=%q %s" [tr_authdom req; keyprompt] = (RpcOk, k) →
  gettickets req (if k is Some _ then k else key sb) (g_trbuf w) (g_tbuf w)
    = (r, tb) →
  0 ≤ r →
  ∃ fa1 w1 fb1 w2 sb1,
    p9skwrite ki fa a na w = inr ((RpcOk, fa1), w1) ∧
    p9skwrite ki fb b nb w1 = inr ((RpcOk, fb1), w2) ∧
    live w2 fb1 sb1 ∧
    take AUTHENTLEN (drop TICKETLEN (tbuf sb1)) =
      convA2M (mkAuthenticator AuthAc (a_chal peer) (a_id peer)) (t_key (t sb)).
Proof.
  intros Hpa Hna Hlea Hpsa Hla Hka Hpb Hnb Hleb Hpsb Hlb (_ & Ht & _) Hne
    peer req Hf Hg Hr.
  pose proof (p9skwrite_SNeedTicket ki fa a na w sa ka la Hpa Hna Hlea Hpsa Hla Hka)
    as Hwa. cbv zeta in Hwa. fold peer in Hwa.
  set (w1 := set_heap _ _) in Hwa.
  assert (heap w1 !! lb = Some (BState sb)) as Hlb1.
  { subst w1. cbn [heap set_heap]. by rewrite lookup_insert_ne. }
  pose proof (p9skwrite_CNeedTreq_ok ki fb b nb w1 sb lb k r tb Hpb Hnb Hleb Hpsb Hlb1)
    as Hwb. cbv zeta in Hwb. fold req in Hwb.
  assert (key (if k is Some _
               then set_key k
                      (if vers sb =? 2
                       then set_cchal (memmove (cchal sb) 0 (tr_chal req) CHALLEN)
                              (set_tr req sb)
                       else set_tr req sb)
               else (if vers sb =? 2
                     then set_cchal (memmove (cchal sb) 0 (tr_chal req) CHALLEN)
                            (set_tr req sb)
                     else set_tr req sb))
          = (if k is Some _ then k else key sb)) as Hkey.
  { destruct k; [done|]. by destruct (vers sb =? 2). }
  rewrite Hkey in Hwb. specialize (Hwb Hf Hg Hr).
  eexists _, _, _, _, _. split; [exact Hwa|]. split; [exact Hwb|]. split.
  { exists lb. split; [done|]. cbn [heap set_heap]. apply lookup_insert_eq. }
  cbn [tbuf set_tbuf].
  change (set_a_num AuthAc (g_auth w1))
    with (mkAuthenticator AuthAc (a_chal peer) (a_id peer)).
  rewrite <- (convA2M_length (mkAuthenticator AuthAc (a_chal peer) (a_id peer))
                (t_key (t sb))) at 1.
  apply poke_read. rewrite length_memmove; lia.
Qed.

End Messages.

Section ServerResult.
Context {E : Env} {OK : EnvOk E}.

(** The server's result comes from the ticket alone: whatever message
    the server is handed at [SNeedTicket], its next read establishes the
    session with the identities of the ticket as decoded under the
    server's own key and with a fresh 8-byte secret expanded from that
    ticket's key; neither the ticket's tag nor its challenge is compared
    with anything.  The session and the result point to the same secret
    block. *)
Theorem server_result_from_ticket ki fss a n w s k n2 :
  phase fss = SNeedTicket →
  0 ≤ n < 2 ^ 32 → Z.of_nat (TICKETLEN + AUTHENTLEN) ≤ n →
  live w fss s → key s = Some k →
  0 ≤ n2 < 2 ^ 32 → Z.of_nat AUTHENTLEN ≤ n2 →
  let tk := convM2T (take TICKETLEN a) (k_priv k) in
  ∃ fss1 w1 fss2 out w2 ls s2,
    p9skwrite ki fss a n w = inr ((RpcOk, fss1), w1) ∧
    p9skread fss1 n2 w1 = inr ((RpcOk, fss2, Z.of_nat AUTHENTLEN, out), w2) ∧
    phase fss2 = Established ∧ haveai fss2 = 1 ∧
    ai_cuid (ai fss2) = Some (t_cuid tk) ∧
    ai_suid (ai fss2) = Some (t_suid tk) ∧
    ai_nsecret (ai fss2) = 8 ∧
    ai_secret (ai fss2) = Some ls ∧
    heap w !! ls = None ∧
    heap w2 !! ls = Some (BBytes (des56to64 (t_key tk))) ∧
    live w2 fss2 s2 ∧ secret s2 = Some ls ∧ t s2 = tk.
Proof.
  intros Hp Hn Hle (l & Hps & Hl) Hk Hn2 Hle2 tk.
  pose proof (p9skwrite_SNeedTicket ki fss a n w s k l Hp Hn Hle Hps Hl Hk) as Hw.
  cbv zeta in Hw. fold tk in Hw.
  set (w1 := set_heap _ _) in Hw. set (s1 := set_tbuf _ _) in w1.
  assert (heap w1 !! l = Some (BState s1)) as Hl1
    by (subst w1; cbn [heap set_heap]; apply lookup_insert_eq).
  assert (dom (heap w1) = dom (heap w)) as Hdom.
  { subst w1. cbn [heap set_heap]. apply dom_insert_lookup_L. eauto. }
  pose proof (p9skread_SHaveAuth (set_phase SHaveAuth fss) n2 w1 s1 l
                eq_refl Hn2 Hle2 Hps Hl1) as Hr.
  cbv zeta in Hr. rewrite Hdom in Hr.
  assert (fresh (dom (heap w)) ∉ dom (heap w)) as Hf by apply is_fresh.
  assert (l ≠ fresh (dom (heap w))) as Hne by (by eapply fresh_heap_ne).
  eexists _, _, _, _, _, (fresh (dom (heap w))), _.
  split; [exact Hw|]. split; [exact Hr|].
  split; [done|]. split; [done|]. split; [done|]. split; [done|].
  split; [done|]. split; [done|].
  split; [by apply not_elem_of_dom|].
  split.
  { cbn [heap set_heap]. rewrite lookup_insert_ne by done.
    rewrite lookup_insert_eq. do 2 f_equal.
    apply poke_all. by rewrite des56to64_length, length_replicate. }
  split; [exists l; split; [done|]; cbn [heap set_heap]; apply lookup_insert_eq|].
  done.
Qed.

(** Teardown after the server's terminal read: [p9skclose] releases the
    key once and frees the secret and the session, so the heap is what it
    was before the read less the session; the secret pointer that the
    result still holds then points at a freed block. *)
Theorem close_after_terminal_read fss n w s l k :
  phase fss = SHaveAuth →
  0 ≤ n < 2 ^ 32 → Z.of_nat AUTHENTLEN ≤ n →
  ps fss = Some l → heap w !! l = Some (BState s) → key s = Some k →
  ∃ fss1 out w1 ls w2,
    p9skread fss n w = inr ((RpcOk, fss1, Z.of_nat AUTHENTLEN, out), w1) ∧
    ai_secret (ai fss1) = Some ls ∧ is_Some (heap w1 !! ls) ∧
    p9skclose fss1 w1 = inr ((), w2) ∧
    closed w2 = closed w ++ [k] ∧
    heap w2 = delete l (heap w) ∧
    heap w2 !! ls = None.
Proof.
  intros Hp Hn Hle Hps Hl Hk.
  pose proof (p9skread_SHaveAuth fss n w s l Hp Hn Hle Hps Hl) as Hr.
  cbv zeta in Hr.
  set (ls := fresh (dom (heap w))) in *.
  assert (ls ∉ dom (heap w)) as Hf by apply is_fresh.
  apply not_elem_of_dom in Hf.
  assert (l ≠ ls) as Hne by (by eapply fresh_heap_ne).
  set (w1 := set_heap _ w) in Hr.
  assert (heap w1 !! l = Some (BState (set_secret (Some ls) s))) as Hl1
    by (subst w1; cbn [heap set_heap]; apply lookup_insert_eq).
  assert (heap w1 !! ls = Some (BBytes (poke (replicate 8 0) 0 (des56to64 (t_key (t s))))))
    as Hls1.
  { subst w1. cbn [heap set_heap]. rewrite lookup_insert_ne by done.
    apply lookup_insert_eq. }
  eexists _, _, w1, ls, _. split; [exact Hr|].
  split; [done|]. split; [by eauto|].
  erewrite p9skclose_live; [|exact Hps|exact Hl1|].
  2:{ intros l2 [= <-]. split; [done|]. by eauto. }
  cbn [secret set_secret key closed set_closed heap set_heap]. rewrite Hk.
  split; [done|]. split; [done|].
  assert (delete l (delete ls (heap w1)) = delete l (heap w)) as Hh.
  { subst w1. cbn [heap set_heap].
    rewrite delete_insert_ne by done.
    rewrite delete_insert_eq, delete_insert_eq.
    rewrite delete_insert_eq. f_equal. by apply delete_id. }
  split; [exact Hh|].
  cbn [heap set_heap]. rewrite Hh. rewrite lookup_delete_ne by done. exact Hf.
Qed.

End ServerResult.

Section ClientChallenge.
Context {E : Env} {OK : EnvOk E}.

(** The challenge a full-variant client hands out is the one draw its
    initialisation made from the random source. *)
Theorem client_challenge_drawn_at_init fss w fss1 w1 n :
  isclient (_strfindattr (attr fss) "role") > 0 →
  p9skinit p9sk1 fss w = inr ((RpcOk, fss1), w1) →
  0 ≤ n < 2 ^ 32 → Z.of_nat CHALLEN ≤ n →
  entropy w1 = S (entropy w) ∧
  dom (heap w1) = {[fresh (dom (heap w))]} ∪ dom (heap w) ∧
  p9skread fss1 n w1 =
    inr ((RpcOk, set_phase CNeedTreq fss1, Z.of_nat CHALLEN,
          memrandom (entropy w) CHALLEN), w1).
Proof.
  intros Hr Hi Hn Hle. revert Hi. unfold p9skinit.
  destruct (Z.ltb_spec (isclient (_strfindattr (attr fss) "role")) 0); [lia|].
  destruct (Z.eqb_spec (isclient (_strfindattr (attr fss) "role")) 0); [lia|].
  unM. unfold emalloc, memrandom_bytes, store_State. state_cbn.
  cbn [negb]. state_cbn. rewrite lookup_insert_eq. intros [= <- <-].
  split; [done|]. split.
  { cbn [heap set_heap]. rewrite insert_insert_eq. apply dom_insert_L. }
  erewrite p9skread_CHaveChal; [|done|done|done|].
  2:{ eexists. split; [done|]. cbn [heap set_heap]. apply lookup_insert_eq. }
  do 3 f_equal. cbn [cchal set_cchal].
  rewrite memmove_all; rewrite ?length_replicate, ?memrandom_length; try done.
  apply take_ge. by rewrite memrandom_length.
Qed.

End ClientChallenge.

Section Sides.
Context {E : Env} {OK : EnvOk E}.

(** What holds before a run and is kept by every operation holds after
    the run. *)
Lemma run_invariant (P : World → Fsstate → Prop) :
  (∀ o fss w rc fss' w',
     P w fss → step o fss w = inr ((rc, fss'), w') → P w' fss') →
  ∀ ops fss w rcs fss2 w2,
    P w fss → run ops fss w = inr ((rcs, fss2), w2) → P w2 fss2.
Proof.
  intros Hstep. induction ops as [|o ops IH]; intros fss w rcs fss2 w2 HP.
  - cbn [run]. unM. by intros [= _ <- <-].
  - cbn [run]. unM.
    destruct (step o fss w) as [|[[rc fss'] w']] eqn:Hs; [done|].
    destruct (run ops fss' w') as [|[[rcs' fss''] w'']] eqn:Hr; [done|].
    intros [= _ <- <-]. eapply IH; [|exact Hr]. by eapply Hstep.
Qed.

Lemma client_phase_cases p :
  p ∈ client_phases ↔ p = CHaveChal ∨ p = CNeedTreq ∨ p = CHaveTicket ∨ p = CNeedAuth.
Proof.
  unfold client_phases. rewrite !elem_of_cons, elem_of_nil. tauto.
Qed.

(** A session outside the server phases: a step keeps it there, with its
    ticket, its secret pointer and the secret of its result as they
    were. *)
Lemma step_client_side o fss w rc fss' w' s :
  live w fss s → phase fss ∉ server_phases →
  step o fss w = inr ((rc, fss'), w') →
  (phase fss' ∉ server_phases) ∧
  ai_secret (ai fss') = ai_secret (ai fss) ∧
  ai_nsecret (ai fss') = ai_nsecret (ai fss) ∧
  ∃ s', live w' fss' s' ∧ t s' = t s ∧ secret s' = secret s.
Proof.
  intros (l & Hps & Hl) Hns.
  pose proof Established_not_server as HE.
  rewrite server_phase_cases in Hns.
  destruct o as [n|ki a n]; cbn [step]; unfold p9skread, p9skwrite; unM;
    unfold load_State, store_State, store_bytes, emalloc, deref_Key; unM;
    rewrite Hps; intros H;
    repeat (case_match; simplify_eq/=);
    repeat match goal with
           | H : (_ =? _) = true |- _ => apply Z.eqb_eq in H
           end;
    try (exfalso; apply Hns; by auto);
    (split;
     [first [done | rewrite server_phase_cases; intros ?; phase_lia]|];
     split; [done|]; split; [done|];
     eexists; split;
     [exists l; split; [done|]; cbn [heap set_heap];
      first [apply lookup_insert_eq | eassumption]
     |done]).
Qed.

(** A session outside the client phases: a step keeps it there, with its
    request and its key as they were. *)
Lemma step_server_side o fss w rc fss' w' s :
  live w fss s → phase fss ∉ client_phases →
  step o fss w = inr ((rc, fss'), w') →
  (phase fss' ∉ client_phases) ∧
  ∃ s', live w' fss' s' ∧ tr s' = tr s ∧ key s' = key s ∧ vers s' = vers s.
Proof.
  intros (l & Hps & Hl) Hnc.
  pose proof Established_out as HE.
  rewrite client_phase_cases in Hnc.
  destruct o as [n|ki a n]; cbn [step]; unfold p9skread, p9skwrite; unM;
    unfold load_State, store_State, store_bytes, emalloc, deref_Key; unM;
    rewrite Hps; intros H;
    repeat (case_match; simplify_eq/=);
    repeat match goal with
           | H : (_ =? _) = true |- _ => apply Z.eqb_eq in H
           end;
    try (exfalso; apply Hnc; by auto);
    (split;
     [first [done | rewrite client_phase_cases; intros ?; phase_lia]|];
     eexists; split;
     [exists l; split; [done|]; cbn [heap set_heap];
      first [apply lookup_insert_eq | eassumption]
     |done]).
Qed.

(** A client session never holds a decoded ticket nor a secret: from its
    initialisation on, through any reads and writes, its ticket is the
    zeroed one of [emalloc], its secret pointer is nil, and the secret of
    its result is what the caller's record held before. *)
Theorem client_session_has_no_ticket_nor_secret p fss w fss1 w1 ops rcs fss2 w2 :
  isclient (_strfindattr (attr fss) "role") > 0 →
  p9skinit p fss w = inr ((RpcOk, fss1), w1) →
  run ops fss1 w1 = inr ((rcs, fss2), w2) →
  ai_secret (ai fss2) = ai_secret (ai fss) ∧
  ai_nsecret (ai fss2) = ai_nsecret (ai fss) ∧
  ∃ s2, live w2 fss2 s2 ∧ t s2 = zero_Ticket ∧ secret s2 = None.
Proof.
  intros Hr Hi Hrun.
  pose (P := λ (w : World) (f : Fsstate),
          (phase f ∉ server_phases) ∧
          ai_secret (ai f) = ai_secret (ai fss) ∧
          ai_nsecret (ai f) = ai_nsecret (ai fss) ∧
          ∃ s, live w f s ∧ t s = zero_Ticket ∧ secret s = None).
  assert (P w1 fss1) as H1.
  { revert Hi. unfold p9skinit.
    destruct (Z.ltb_spec (isclient (_strfindattr (attr fss) "role")) 0); [lia|].
    destruct (Z.eqb_spec (isclient (_strfindattr (attr fss) "role")) 0); [lia|].
    unM. unfold emalloc, memrandom_bytes, store_State. state_cbn. cbn [negb].
    destruct p; unM; state_cbn; rewrite ?lookup_insert_eq; [..|done];
      intros [= <- <-];
      (split; [rewrite server_phase_cases; cbn; intros ?; phase_lia|];
       split; [done|]; split; [done|];
       eexists; split;
       [eexists; split; [done|]; cbn [heap set_heap]; apply lookup_insert_eq|done]). }
  assert (P w2 fss2) as (_ & ? & ? & ?); [|done].
  eapply (run_invariant P); [|exact H1|exact Hrun].
  intros o f w0 rc f' w' (Hns & Hs1 & Hs2 & s & Hl & Ht & Hsec) Hstep.
  destruct (step_client_side _ _ _ _ _ _ _ Hl Hns Hstep)
    as (Hns' & Ha & Hb & s' & Hl' & Ht' & Hsec').
  split; [done|]. split; [congruence|]. split; [congruence|].
  exists s'. split; [done|]. split; congruence.
Qed.

(** A server session keeps the request and the key of its
    initialisation: no read or write changes the ticket request, its
    challenge included, nor the key record. *)
Theorem server_request_and_key_fixed p fss w fss1 w1 s1 ops rcs fss2 w2 :
  isclient (_strfindattr (attr fss) "role") = 0 →
  p9skinit p fss w = inr ((RpcOk, fss1), w1) →
  live w1 fss1 s1 →
  run ops fss1 w1 = inr ((rcs, fss2), w2) →
  ∃ s2, live w2 fss2 s2 ∧ tr s2 = tr s1 ∧ key s2 = key s1 ∧ is_Some (key s2).
Proof.
  intros Hr Hi Hl1 Hrun.
  assert ((phase fss1 ∉ client_phases) ∧ is_Some (key s1)) as [Hnc Hk1].
  { revert Hi Hl1. unfold p9skinit. rewrite Hr. unM.
    change (0 <? 0) with false. change (negb (0 =? 0)) with false. cbv iota.
    unfold emalloc, memrandom_bytes, store_State, deref_Key, safecpy, free. unM.
    intros H. repeat (case_match; simplify_eq/=);
      intros (l' & Hps' & Hl'); cbn in Hps'; simplify_eq;
      cbn [heap set_heap] in Hl'; rewrite lookup_insert_eq in Hl'; simplify_eq/=;
      (split; [rewrite client_phase_cases; intros ?; phase_lia|by eexists]). }
  pose (P := λ (w : World) (f : Fsstate),
          (phase f ∉ client_phases) ∧
          ∃ s, live w f s ∧ tr s = tr s1 ∧ key s = key s1).
  assert (P w2 fss2) as (_ & s2 & ? & ? & Hk); [|exists s2; by rewrite Hk].
  eapply (run_invariant P); [|split; [done|by exists s1]|exact Hrun].
  intros o f w0 rc f' w' (Hn & s & Hl & Ht & Hk) Hstep.
  destruct (step_server_side _ _ _ _ _ _ _ Hl Hn Hstep)
    as (Hn' & s' & Hl' & Ht' & Hk' & _).
  split; [done|]. exists s'. split; [done|]. split; congruence.
Qed.

End Sides.

Section Isolation.
Context {E : Env}.

(** Initialisation and teardown keep to their own session: [p9skinit]
    changes no block that is live, and the session it creates on
    success sits at an address that was free; [p9skclose] changes no
    block other than the session and its secret.  Neither touches the
    shared staging variables. *)
Theorem init_and_close_frame p fss w s :
  (∀ rc fss1 w1, p9skinit p fss w = inr ((rc, fss1), w1) →
     closed w1 = closed w ∧ g_auth w1 = g_auth w ∧
     g_trbuf w1 = g_trbuf w ∧ g_tbuf w1 = g_tbuf w ∧
     (∀ l b, heap w !! l = Some b → heap w1 !! l = Some b) ∧
     (rc = RpcOk → ∃ l1, ps fss1 = Some l1 ∧ heap w !! l1 = None ∧
                         is_Some (heap w1 !! l1))) ∧
  (live w fss s →
   ∀ w', p9skclose fss w = inr ((), w') →
     entropy w' = entropy w ∧ g_auth w' = g_auth w ∧
     g_trbuf w' = g_trbuf w ∧ g_tbuf w' = g_tbuf w ∧
     (∀ l b, ps fss ≠ Some l → secret s ≠ Some l →
             heap w !! l = Some b → heap w' !! l = Some b)).
Proof.
  split.
  - intros rc fss1 w1.
    assert (fresh (dom (heap w)) ∉ dom (heap w)) as Hf by apply is_fresh.
    pose proof Hf as Hf'. apply not_elem_of_dom in Hf'.
    unfold p9skinit. unM.
    unfold emalloc, memrandom_bytes, store_State, deref_Key, safecpy, free. unM.
    intros H. repeat (case_match; simplify_eq/=); split_and!; try done.
    all: first
      [ intros l' b' Hl'; pose proof (fresh_heap_ne _ _ _ Hl');
        cbn [heap set_heap];
        rewrite ?delete_insert_dom by done;
        by rewrite ?lookup_insert_ne by congruence
      | intros Hrc;
        eexists; split; [done|]; split; [done|];
        cbn [heap set_heap]; rewrite lookup_insert_eq; by eexists ].
  - intros (l0 & Hps & Hl0) w'. unfold p9skclose. unM.
    unfold load_State, free, closekey. rewrite Hps, Hl0.
    intros H. repeat (case_match; simplify_eq/=); split_and!; try done.
    all: intros l' b' Hn1 Hn2 Hl'; cbn [heap set_heap];
      by rewrite ?lookup_delete_ne by congruence.
Qed.

End Isolation.

Section MoreWitnesses.
Import Mock MockRuns.
#[local] Existing Instance Mock.env.
#[local] Existing Instance MockFacts.env_ok.

Lemma session_never_faults_witness :
  ∃ rcs fss2 w2 s2,
    run server_ops (outcome (p9skinit p9sk1 (fss0 "server")) (RpcOk, fss_none)).1.2
      (outcome (p9skinit p9sk1 (fss0 "server")) (RpcOk, fss_none)).2
      = inr ((rcs, fss2), w2) ∧
    length rcs = length server_ops ∧
    live w2 fss2 s2 ∧ wf_State s2.
Proof.
  apply (session_never_faults p9sk1 (fss0 "server") world0).
  by_compute.
Defined.

Lemma init_failure_leaves_store_witness :
  let r := outcome (p9skinit p9sk1 (fss0 "nobody")) (RpcOk, fss_none) in
  heap r.2 = heap world0 ∧ closed r.2 = closed world0 ∧
  entropy r.2 = entropy world0 ∧
  ps r.1.2 = ps (fss0 "nobody") ∧ phase r.1.2 = phase (fss0 "nobody") ∧
  ai r.1.2 = ai (fss0 "nobody") ∧ haveai r.1.2 = haveai (fss0 "nobody").
Proof.
  intros r.
  apply (init_failure_leaves_store p9sk1 (fss0 "nobody") world0 RpcFailure).
  - by_compute.
  - discriminate.
Defined.

Lemma step_frame_witness :
  let fc := stage_treq.1.1.2 in
  let w := stage_treq.2 in
  let r := outcome (λ _, step (OpWrite ki0 stage_treq.1.2 141) fc w) (RpcOk, fss_none) in
  entropy r.2 = entropy w ∧ g_trbuf r.2 = g_trbuf w ∧
  attr r.1.2 = attr fc ∧ ps r.1.2 = ps fc ∧
  ∀ l b, ps fc ≠ Some l → heap w !! l = Some b → heap r.2 !! l = Some b.
Proof.
  intros fc w r.
  apply (step_frame (OpWrite ki0 stage_treq.1.2 141) fc w RpcOk).
  by_compute.
Defined.

Lemma secret_only_from_terminal_read_witness :
  let fc := stage_treq.1.1.2 in
  let w := stage_treq.2 in
  let r := outcome (λ _, step (OpWrite ki0 stage_treq.1.2 141) fc w) (RpcOk, fss_none) in
  dom (heap r.2) = dom (heap w) ∧
  ai_secret (ai r.1.2) = ai_secret (ai fc) ∧
  ai_nsecret (ai r.1.2) = ai_nsecret (ai fc) ∧
  ∃ s', live r.2 r.1.2 s' ∧ secret s' = secret (session_at w 1).
Proof.
  intros fc w r.
  apply (secret_only_from_terminal_read (OpWrite ki0 stage_treq.1.2 141) fc w RpcOk).
  - exists 1%nat. split; by_compute.
  - by_compute.
  - left. by_compute.
Defined.

Lemma only_required_bytes_matter_witness :
  let fc := stage_treq.1.1.2 in
  let fs := stage_treq.1.1.1 in
  let w := stage_treq.2 in
  p9skwrite ki0 fc (stage_treq.1.2 ++ [9; 9; 9]) 144 w =
    p9skwrite ki0 fc (take 141 (stage_treq.1.2 ++ [9; 9; 9])) 141 w ∧
  p9skread stage_init.1.2 4096 stage_init.2 = p9skread stage_init.1.2 8 stage_init.2.
Proof.
  intros fc fs w.
  destruct (only_required_bytes_matter ki0 fc (stage_treq.1.2 ++ [9; 9; 9]) 144 w 141)
    as [Hw _]; [lia|by_compute|].
  destruct (only_required_bytes_matter ki0 stage_init.1.2 [] 4096 stage_init.2 8)
    as [_ Hr]; [lia|by_compute|].
  split; [apply Hw|apply Hr]; by_compute.
Defined.

Lemma challenge_passes_to_server_witness :
  let fs := stage_init.1.1 in
  let fc := stage_init.1.2 in
  let w := stage_init.2 in
  ∃ fc' out fs' w' ss',
    p9skread fc 8 w = inr ((RpcOk, fc', Z.of_nat CHALLEN, out), w) ∧
    out = cchal (session_at w 1) ∧
    p9skwrite ki0 fs out 8 w = inr ((RpcOk, fs'), w') ∧
    phase fc' = CNeedTreq ∧ phase fs' = SHaveTreq ∧
    live w' fs' ss' ∧ cchal ss' = cchal (session_at w 1) ∧
    live w' fc' (session_at w 1).
Proof.
  intros fs fc w.
  apply (challenge_passes_to_server ki0 fc fs w (session_at w 1) (session_at w 0)
           1 0 8 8); try by_compute; lia.
Defined.

Lemma request_passes_to_client_witness :
  let fs := stage_chal.1.1 in
  let fc := stage_chal.1.2 in
  let w := stage_chal.2 in
  ∃ fs' rc fc' w' sc',
    p9skread fs 141 w
      = inr ((RpcOk, fs', Z.of_nat TICKREQLEN, convTR2M (tr (session_at w 0))), w) ∧
    p9skwrite ki0 fc (convTR2M (tr (session_at w 0))) 141 w = inr ((rc, fc'), w') ∧
    (rc = RpcOk ∨ rc = RpcFailure) ∧
    live w' fc' sc' ∧
    tr sc' = convM2TR (convTR2M (tr (session_at w 0))).
Proof.
  intros fs fc w.
  apply (request_passes_to_client ki0 fc fs w (session_at w 1) (session_at w 0)
           141 141); try by_compute; try lia.
  - exists 0%nat. split; by_compute.
  - exists 1%nat. split; by_compute.
Defined.

Lemma client_ticket_message_witness :
  let fc := stage_treq.1.1.2 in
  let treq := stage_treq.1.2 in
  let w := stage_treq.2 in
  let s := session_at w 1 in
  let tb := (mock_gettickets (convM2TR (take TICKREQLEN treq)) (Some client_key)
               (g_trbuf w) (g_tbuf w)).2 in
  ∃ fss1 w1 fss2 s1,
    p9skwrite ki0 fc treq 141 w = inr ((RpcOk, fss1), w1) ∧
    live w1 fss1 s1 ∧ t s1 = t s ∧
    g_auth w1 = mkAuthenticator AuthAc (a_chal (g_auth w)) (a_id (g_auth w)) ∧
    p9skread fss1 85 w1 =
      inr ((RpcOk, fss2, Z.of_nat (TICKETLEN + AUTHENTLEN),
            take TICKETLEN (drop TICKETLEN tb) ++
            convA2M (mkAuthenticator AuthAc (a_chal (g_auth w)) (a_id (g_auth w)))
              (t_key (t s))), w1).
Proof.
  intros fc treq w s tb.
  apply (client_ticket_message ki0 fc treq 141 w s (Some client_key) 0 tb 85);
    try by_compute; try lia.
  exists 1%nat. split; by_compute.
Defined.

Lemma auth_crosses_sessions_witness :
  let fa := stage_second.1.1.1 in
  let fb := stage_second.1.1.2 in
  let tick := stage_second.1.2 in
  let w := stage_second.2 in
  let treq := stage_treq.1.2 in
  let peer := convM2A (take AUTHENTLEN (drop TICKETLEN tick))
                (t_key (convM2T (take TICKETLEN tick) (k_priv server_key))) in
  ∃ fa1 w1 fb1 w2 sb1,
    p9skwrite ki0 fa tick 85 w = inr ((RpcOk, fa1), w1) ∧
    p9skwrite ki0 fb treq 141 w1 = inr ((RpcOk, fb1), w2) ∧
    live w2 fb1 sb1 ∧
    take AUTHENTLEN (drop TICKETLEN (tbuf sb1)) =
      convA2M (mkAuthenticator AuthAc (a_chal peer) (a_id peer))
        (t_key (t (session_at w 2))).
Proof.
  intros fa fb tick w treq.
  apply (auth_crosses_sessions ki0 fa tick 85 fb treq 141 w
           (session_at w 0) (session_at w 2) server_key 0 2 (Some client_key) 0
           (mock_gettickets (convM2TR (take TICKREQLEN treq)) (Some client_key)
              (g_trbuf w) (g_tbuf w)).2);
    try by_compute; lia.
Defined.

Lemma server_result_from_ticket_witness :
  let fs := stage_ticket.1.1.1 in
  let tick := stage_ticket.1.2 in
  let w := stage_ticket.2 in
  let tk := convM2T (take TICKETLEN tick) (k_priv server_key) in
  ∃ fss1 w1 fss2 out w2 ls s2,
    p9skwrite ki0 fs tick 85 w = inr ((RpcOk, fss1), w1) ∧
    p9skread fss1 13 w1 = inr ((RpcOk, fss2, Z.of_nat AUTHENTLEN, out), w2) ∧
    phase fss2 = Established ∧ haveai fss2 = 1 ∧
    ai_cuid (ai fss2) = Some (t_cuid tk) ∧
    ai_suid (ai fss2) = Some (t_suid tk) ∧
    ai_nsecret (ai fss2) = 8 ∧
    ai_secret (ai fss2) = Some ls ∧
    heap w !! ls = None ∧
    heap w2 !! ls = Some (BBytes (des56to64 (t_key tk))) ∧
    live w2 fss2 s2 ∧ secret s2 = Some ls ∧ t s2 = tk.
Proof.
  intros fs tick w.
  apply (server_result_from_ticket ki0 fs tick 85 w (session_at w 0) server_key 13);
    try by_compute; try lia.
  exists 0%nat. split; by_compute.
Defined.

Lemma close_after_terminal_read_witness :
  let fs := stage_have_auth.1.1 in
  let w := stage_have_auth.2 in
  ∃ fss1 out w1 ls w2,
    p9skread fs 13 w = inr ((RpcOk, fss1, Z.of_nat AUTHENTLEN, out), w1) ∧
    ai_secret (ai fss1) = Some ls ∧ is_Some (heap w1 !! ls) ∧
    p9skclose fss1 w1 = inr ((), w2) ∧
    closed w2 = closed w ++ [server_key] ∧
    heap w2 = delete 0%nat (heap w) ∧
    heap w2 !! ls = None.
Proof.
  intros fs w.
  apply (close_after_terminal_read fs 13 w (session_at w 0) 0 server_key);
    try by_compute; lia.
Defined.

Lemma client_challenge_drawn_at_init_witness :
  let r := outcome (p9skinit p9sk1 (fss0 "client")) (RpcOk, fss_none) in
  entropy r.2 = S (entropy world0) ∧
  dom (heap r.2) = {[fresh (dom (heap world0))]} ∪ dom (heap world0) ∧
  p9skread r.1.2 8 r.2 =
    inr ((RpcOk, set_phase CNeedTreq r.1.2, Z.of_nat CHALLEN,
          memrandom (entropy world0) CHALLEN), r.2).
Proof.
  intros r.
  apply (client_challenge_drawn_at_init (fss0 "client") world0 r.1.2 r.2 8);
    try by_compute; lia.
Defined.

Lemma client_session_has_no_ticket_nor_secret_witness :
  let i := outcome (p9skinit p9sk1 (fss0 "client")) (RpcOk, fss_none) in
  let r := outcome (λ _, run client_ops i.1.2 i.2) ([], fss_none) in
  ai_secret (ai r.1.2) = ai_secret (ai (fss0 "client")) ∧
  ai_nsecret (ai r.1.2) = ai_nsecret (ai (fss0 "client")) ∧
  ∃ s2, live r.2 r.1.2 s2 ∧ t s2 = zero_Ticket ∧ secret s2 = None.
Proof.
  intros i r.
  apply (client_session_has_no_ticket_nor_secret p9sk1 (fss0 "client") world0
           i.1.2 i.2 client_ops r.1.1 r.1.2 r.2); by_compute.
Defined.

Lemma server_request_and_key_fixed_witness :
  let i := outcome (p9skinit p9sk1 (fss0 "server")) (RpcOk, fss_none) in
  let r := outcome (λ _, run server_ops i.1.2 i.2) ([], fss_none) in
  ∃ s2, live r.2 r.1.2 s2 ∧ tr s2 = tr (session_at i.2 0) ∧
        key s2 = key (session_at i.2 0) ∧ is_Some (key s2).
Proof.
  intros i r.
  apply (server_request_and_key_fixed p9sk1 (fss0 "server") world0
           i.1.2 i.2 (session_at i.2 0) server_ops r.1.1 r.1.2 r.2);
    try by_compute.
  exists 0%nat. split; by_compute.
Defined.

Lemma init_and_close_frame_witness :
  let fs := stage_auth.1.1.1 in
  let w := stage_auth.2 in
  let s := session_at w 0 in
  (∀ rc fss1 w1, p9skinit p9sk2 fs w = inr ((rc, fss1), w1) →
     closed w1 = closed w ∧ g_auth w1 = g_auth w ∧
     g_trbuf w1 = g_trbuf w ∧ g_tbuf w1 = g_tbuf w ∧
     (∀ l b, heap w !! l = Some b → heap w1 !! l = Some b) ∧
     (rc = RpcOk → ∃ l1, ps fss1 = Some l1 ∧ heap w !! l1 = None ∧
                         is_Some (heap w1 !! l1))) ∧
  (∀ w', p9skclose fs w = inr ((), w') →
     entropy w' = entropy w ∧ g_auth w' = g_auth w ∧
     g_trbuf w' = g_trbuf w ∧ g_tbuf w' = g_tbuf w ∧
     (∀ l b, ps fs ≠ Some l → secret s ≠ Some l →
             heap w !! l = Some b → heap w' !! l = Some b)).
Proof.
  intros fs w s.
  destruct (init_and_close_frame p9sk2 fs w s) as [Hi Hc].
  split; [exact Hi|]. apply Hc.
  exists 0%nat. split; by_compute.
Defined.

End MoreWitnesses.
